(** * syz-fuzzer: shared corpus/signal state, manager polling and call list

    A shallow embedding of [syz-fuzzer/fuzzer.go]: the process-wide
    globals ([corpusSignal], [maxSignal], [newSignal], [corpus],
    [corpusHashes], [allTriaged], [noCover]) become one [State] record,
    Go functions that mutate them become computations in a small
    state-and-panic monad, and the body of the poll loop of [main]
    becomes a function of one wake-up of the loop. *)

From Stdlib Require Import ZArith Ascii.
From stdpp Require Import gmap strings list fin_maps pretty.

Open Scope string_scope.
Open Scope list_scope.
Set Warnings "-clear-no-such-hyp".

(** ** Plain data *)

(** Coverage tokens are Go [uint32] values; no arithmetic is ever done on
    them, they are only stored in sets. *)
Abbreviation token := N (only parsing).

(** Serialized programs are Go [[]byte]. *)
Abbreviation bytes := (list Byte.byte) (only parsing).

(** Go [error] values are carried as their message. *)
Abbreviation error := string (only parsing).

(** [rpctype.RpcInput]: program bytes, signal, cover and call index. *)
Module RpcInput.
Record t := mk {
  Prog : bytes;
  Signal : list token;
  Cover : list token;
  CallIndex : Z
}.
End RpcInput.

(** [rpctype.RpcCandidate]. *)
Module RpcCandidate.
Record t := mk {
  Prog : bytes;
  Minimized : bool
}.
End RpcCandidate.

(** [rpctype.PollArgs]; the [Name] and [Stats] fields carry no state that
    the functions below read back, and are left out. *)
Module PollArgs.
Record t := mk {
  NeedCandidates : bool;
  MaxSignal : list token
}.
End PollArgs.

(** [rpctype.PollRes]. *)
Module PollRes.
Record t := mk {
  Candidates : list RpcCandidate.t;
  NewInputs : list RpcInput.t;
  MaxSignal : list token
}.
End PollRes.

(** The fields of [rpctype.ConnectRes] that seed the shared state. *)
Module ConnectRes.
Record t := mk {
  EnabledCalls : string;
  Inputs : list RpcInput.t;
  MaxSignal : list token;
  Candidates : list RpcCandidate.t
}.
End ConnectRes.

(** ** Package [cover] *)

(** Modelled from the spec: [cover.SignalDiff] is not part of the sources
    at hand; the spec calls it [signal_diff_vs_max(s) -> s'], the tokens of
    [s] that are not yet in the base set. *)
Definition SignalDiff (base : gset token) (signal : list token) : list token :=
  filter (λ s, s ∉ base) signal.

(** Modelled from the spec: [cover.SignalAdd] ([extend_max],
    [extend_corpus_signal]) adds every token of the slice to the base set. *)
Definition SignalAdd (base : gset token) (signal : list token) : gset token :=
  foldl (λ b s, {[s]} ∪ b) base signal.

(** ** Time *)

(** A [time.Time] is counted in nanoseconds from the zero [Time], so that
    the zero value of [lastPoll] is [0]; a [time.Duration] is an [int64]
    count of nanoseconds and [Time.Sub] saturates at its bounds. *)
Definition maxDuration : Z := 2 ^ 63 - 1.
Definition minDuration : Z := - 2 ^ 63.
Definition Second : Z := 1000000000.

Definition Since (now t : Z) : Z :=
  let d := (now - t)%Z in
  if (maxDuration <? d)%Z then maxDuration
  else if (d <? minDuration)%Z then minDuration
  else d.

(** ** Events visible outside the shared state *)

Inductive Event :=
| EvPoll (a : PollArgs.t)           (* manager.Call("Manager.Poll", a, r) *)
| EvKmemleakScan (report : bool)    (* kmemleakScan(report) *)
| EvStoreAllTriaged (v : N)         (* atomic.StoreUint32(&allTriaged, v) *)
| EvAlive.                          (* Logf(0, "alive, executed %v", execTotal) *)

(** How many [Manager.Poll] calls a trace holds. *)
Fixpoint polls (t : list Event) : nat :=
  match t with
  | [] => 0
  | EvPoll _ :: t' => S (polls t')
  | _ :: t' => polls t'
  end.

(** ** Go library functions used by [buildCallList] *)

(** [strings.Split(s, ",")]: the fields between commas; a string without
    a comma, the empty one included, is its own single field. *)
Fixpoint Split (s : string) : list string :=
  match s with
  | EmptyString => [EmptyString]
  | String c s' =>
      if Ascii.eqb c ","%char then EmptyString :: Split s'
      else match Split s' with
           | [] => [String c EmptyString]
           | fld :: flds => String c fld :: flds
           end
  end.

Definition digit (c : Ascii.ascii) : option N :=
  let n := Ascii.N_of_ascii c in
  if (48 <=? n)%N && (n <=? 57)%N then Some (n - 48)%N else None.

Fixpoint parseDigits (s : string) (acc : N) : option N :=
  match s with
  | EmptyString => Some acc
  | String c s' =>
      match digit c with
      | Some d => parseDigits s' (acc * 10 + d)%N
      | None => None
      end
  end.

(** [strconv.ParseUint(s, 10, 64)]: [None] stands for a non-nil error,
    which is returned for the empty string, for any character that is not
    a decimal digit (no sign, no underscore in base 10) and for a value
    that does not fit 64 bits. *)
Definition ParseUint (s : string) : option N :=
  match s with
  | EmptyString => None
  | _ => match parseDigits s 0 with
         | Some n => if (n <? 2 ^ 64)%N then Some n else None
         | None => None
         end
  end.

(** A [*prog.Syscall] is known by its identity only. *)
Abbreviation Syscall := N (only parsing).

(** The parts of [prog.Target] that [buildCallList] reads: the [Syscalls]
    field and the [TransitivelyEnabledCalls] method. *)
Record Target := mkTarget {
  Syscalls : list Syscall;
  TransitivelyEnabledCalls : gmap Syscall bool → gmap Syscall bool
}.

(** [m[c]] on a Go [map[*prog.Syscall]bool]: [false] for a missing key. *)
Definition index (m : gmap Syscall bool) (c : Syscall) : bool :=
  default false (m !! c).

(** [strings.Join(ids, ",")]: how a list of ids is written before it is
    handed to [buildCallList]. *)
Fixpoint Join (ids : list string) : string :=
  match ids with
  | [] => EmptyString
  | [id] => id
  | id :: ids' => id +:+ String ","%char (Join ids')
  end.

(** ** The statistics that a poll reports (lines 289-305 of [main]) *)

(** The indices of [fuzzer.stats]; [StatCount], their number, is the
    length of the array. *)
Inductive Stat :=
| StatGenerate | StatFuzz | StatCandidate | StatTriage
| StatMinimize | StatSmash | StatHint | StatSeed.

#[global] Instance Stat_eq_dec : EqDecision Stat.
Proof. solve_decision. Defined.

(** The two counters of [proc.env] that the poll reads. *)
Record Env := mkEnv {
  StatExecs : Z;
  StatRestarts : Z
}.

(** [fuzzer.procs], [fuzzer.stats] and the [execTotal] local of [main];
    all counters are [uint64]. *)
Record Counters := mkCounters {
  procs : list Env;
  stats : Stat → Z;
  execTotal : Z
}.

(** [uint64] addition. *)
Definition add64 (a b : Z) : Z := ((a + b) mod 2 ^ 64)%Z.

(** [m[k] += v] on a [map[string]uint64]. *)
Definition addStat (k : string) (v : Z) (m : gmap string Z) : gmap string Z :=
  <[k := add64 (default 0%Z (m !! k)) v]> m.

(** [for _, proc := range fuzzer.procs]: both counters of every proc are
    swapped to zero and added up under two names. *)
Definition procStats (envs : list Env) : gmap string Z :=
  foldl (λ m e, addStat "executor restarts" (StatRestarts e)
                  (addStat "exec total" (StatExecs e) m))
        ∅ envs.

(** The [stat] closure: swap one counter of [fuzzer.stats] to zero, report
    it under [name], add it to [execTotal]. *)
Definition stat (k : Stat) (name : string) (mc : gmap string Z * Counters)
  : gmap string Z * Counters :=
  let v := stats mc.2 k in
  (<[name := v]> mc.1,
   mkCounters (procs mc.2)
              (λ j, if decide (j = k) then 0%Z else stats mc.2 j)
              (add64 (execTotal mc.2) v)).

Definition collectStats (c : Counters) : gmap string Z * Counters :=
  let start :=
    (procStats (procs c),
     mkCounters ((λ _, mkEnv 0 0) <$> procs c) (stats c) (execTotal c)) in
  stat StatSeed "exec seeds"
    (stat StatHint "exec hints"
       (stat StatSmash "exec smash"
          (stat StatMinimize "exec minimize"
             (stat StatTriage "exec triage"
                (stat StatCandidate "exec candidate"
                   (stat StatFuzz "exec fuzz"
                      (stat StatGenerate "exec gen" start))))))).

(** The sum of the eight activity counters. *)
Definition activity (c : Counters) : Z :=
  (stats c StatGenerate + stats c StatFuzz + stats c StatCandidate
   + stats c StatTriage + stats c StatMinimize + stats c StatSmash
   + stats c StatHint + stats c StatSeed)%Z.

(** ** The executor flags (lines 156-163 of [main]) *)

(** [calls[target.SyscallMap[name]]]; a name that the target does not know
    gives the nil pointer, which is never a key of [calls]. *)
Definition callEnabled (syscallMap : gmap string Syscall)
    (calls : gmap Syscall bool) (name : string) : bool :=
  match syscallMap !! name with
  | Some c => index calls c
  | None => false
  end.

(** [config.Flags] after the two [|=] of [main], from the flags that
    [ipc.DefaultConfig] returned. *)
Definition configFlags (FlagEnableTun FlagEnableFault : Z)
    (syscallMap : gmap string Syscall) (calls : gmap Syscall bool)
    (faultInjectionEnabled : bool) (flags : Z) : Z :=
  let flags :=
    if callEnabled syscallMap calls "syz_emit_ethernet"
       || callEnabled syscallMap calls "syz_extract_tcp_res"
    then Z.lor flags FlagEnableTun else flags in
  if faultInjectionEnabled then Z.lor flags FlagEnableFault else flags.

(** ** What the leak scanner has been asked so far *)

(** Read off a trace: [Triaging] until [allTriaged] is stored, then
    [Reporting]; [Broken] if a reporting scan came before the store, or a
    second store or a baseline scan after it. *)
Inductive LeakPhase := Triaging | Reporting | Broken.

Definition leakStep (ph : LeakPhase) (e : Event) : LeakPhase :=
  match ph, e with
  | Triaging, EvKmemleakScan true => Broken
  | Triaging, EvStoreAllTriaged _ => Reporting
  | Reporting, EvKmemleakScan false => Broken
  | Reporting, EvStoreAllTriaged _ => Broken
  | _, _ => ph
  end.

Definition leakPhase (t : list Event) : LeakPhase := foldl leakStep Triaging t.

(** ** Stand-ins for the other packages, used to run the model *)

(** A deserializer that rejects the empty byte string and reads any other
    one as its length. *)
Definition lenDeserialize (b : bytes) : nat + error :=
  match b with
  | [] => inr "empty program"
  | _ => inl (length b)
  end.

(** A content hash: the bytes themselves, read as numbers. *)
Definition byteHash (b : bytes) : list N := Byte.to_N <$> b.

(** A target with one syscall, and a host whose detection fails. *)
Definition oneCallTarget : Target := mkTarget [7%N] (λ m, m).
Definition hostUnknown (t : Target) : gmap Syscall bool * option error :=
  (∅, Some "kallsyms unreadable").

(** A target with three syscalls on a host that supports two of them. *)
Definition threeCallTarget : Target := mkTarget [7%N; 8%N; 9%N] (λ m, m).
Definition hostKnown (t : Target) : gmap Syscall bool * option error :=
  ({[7%N := true; 9%N := true]}, None).

Definition demoInput : RpcInput.t :=
  RpcInput.mk [Byte.x01] [17%N; 42%N] [] 0.
Definition demoCandidate : RpcCandidate.t :=
  RpcCandidate.mk [Byte.x02; Byte.x03] true.
Definition emptyCandidate : RpcCandidate.t := RpcCandidate.mk [] false.

(** One turn of the poll loop of [main], as seen from outside: which case
    the [select] took, what the clock and the work queue answered, and how
    the manager answers a [Manager.Poll] call. *)
Record Wake := mkWake {
  fired : bool;                               (* the [<-needPoll] case was taken *)
  woke : Z;                                   (* clock read by [time.Since(lastPrint)] *)
  printed : Z;                                (* clock read by [lastPrint = time.Now()] *)
  now : Z;                                    (* clock read by [time.Since(lastPoll)] *)
  wantCandidates : bool;                      (* [fuzzer.workQueue.wantCandidates()] *)
  call : PollArgs.t → PollRes.t + error;      (* [manager.Call("Manager.Poll", a, r)] *)
  finished : Z                                (* clock read by [lastPoll = time.Now()] *)
}.

(** The pulse fired, no candidates are wanted, the manager is down. *)
Definition pulseWake : Wake :=
  mkWake true 0 0 0 false (λ _, inr "manager down") 0.

(** The ticker fired long after the last poll; the manager answers with
    one token of max signal and nothing else. *)
Definition tickWake : Wake :=
  mkWake false 19999999998 19999999999 20000000000 false
         (λ _, inl (PollRes.mk [] [] [9%N])) 20000000001.

(** The ticker fires again five seconds after [tickWake] began. *)
Definition soonWake : Wake :=
  mkWake false 24999999998 24999999999 25000000000 false
         (λ _, inr "not called") 25000000001.

(** A [Manager.Connect] answer with one id, one input, one token of max
    signal and one candidate; a second input with the bytes of the first
    and another signal. *)
Definition seedRes : ConnectRes.t :=
  ConnectRes.mk "0" [demoInput] [9%N] [demoCandidate].

(** The same answer with a candidate that does not deserialize. *)
Definition brokenSeed : ConnectRes.t :=
  ConnectRes.mk "0" [demoInput] [9%N] [demoCandidate; emptyCandidate].
Definition otherInput : RpcInput.t :=
  RpcInput.mk [Byte.x01; Byte.x02] [5%N; 17%N] [] 1.

(** Poll results: nothing but max signal; one input and one candidate; a
    candidate that does not deserialize behind one that does. *)
Definition idleRes : PollRes.t := PollRes.mk [] [] [9%N].
Definition busyRes : PollRes.t := PollRes.mk [demoCandidate] [demoInput] [9%N].
Definition brokenRes : PollRes.t :=
  PollRes.mk [demoCandidate; emptyCandidate] [] [].

Section Fuzzer.

(** [prog.Prog], [hash.Sig], [target.Deserialize] and [hash.Hash] belong
    to other packages; everything below holds for any of them. *)
Context {Program : Type} {Sig : Type} `{Countable Sig}.
Variable Deserialize : bytes → Program + error.
Variable Hash : bytes → Sig.

(** The [-leak] and [-output] flags, and the [ipc.FlagSignal] bit of the
    executor configuration. *)
Variable flagLeak : bool.
Variable flagOutput : string.
Variable FlagSignal : Z.

(** The global [target], and [host.DetectSupportedSyscalls], which
    returns a map and an error. *)
Variable target : Target.
Variable DetectSupportedSyscalls : Target → gmap Syscall bool * option error.

(** [WorkCandidate{p, minimized}] as built by [main]. *)
Record WorkCandidate := mkWorkCandidate {
  p : Program;
  minimized : bool
}.

(** The package-level variables of [fuzzer.go], the candidate items of
    [fuzzer.workQueue] in enqueue order, the [lastPoll] and [lastPrint]
    locals of [main], and the trace of outside events. *)
Record State := mkState {
  corpusSignal : gset token;
  maxSignal : gset token;
  newSignal : gset token;
  corpus : list Program;
  corpusHashes : gset Sig;
  allTriaged : N;
  noCover : bool;
  workQueue : list WorkCandidate;
  lastPoll : Z;
  lastPrint : Z;
  trace : list Event
}.

Definition set_corpusSignal (v : gset token) (s : State) : State :=
  mkState v (maxSignal s) (newSignal s) (corpus s) (corpusHashes s)
          (allTriaged s) (noCover s) (workQueue s) (lastPoll s) (lastPrint s)
          (trace s).
Definition set_maxSignal (v : gset token) (s : State) : State :=
  mkState (corpusSignal s) v (newSignal s) (corpus s) (corpusHashes s)
          (allTriaged s) (noCover s) (workQueue s) (lastPoll s) (lastPrint s)
          (trace s).
Definition set_newSignal (v : gset token) (s : State) : State :=
  mkState (corpusSignal s) (maxSignal s) v (corpus s) (corpusHashes s)
          (allTriaged s) (noCover s) (workQueue s) (lastPoll s) (lastPrint s)
          (trace s).
Definition set_corpus (v : list Program) (s : State) : State :=
  mkState (corpusSignal s) (maxSignal s) (newSignal s) v (corpusHashes s)
          (allTriaged s) (noCover s) (workQueue s) (lastPoll s) (lastPrint s)
          (trace s).
Definition set_corpusHashes (v : gset Sig) (s : State) : State :=
  mkState (corpusSignal s) (maxSignal s) (newSignal s) (corpus s) v
          (allTriaged s) (noCover s) (workQueue s) (lastPoll s) (lastPrint s)
          (trace s).
Definition set_allTriaged (v : N) (s : State) : State :=
  mkState (corpusSignal s) (maxSignal s) (newSignal s) (corpus s) (corpusHashes s)
          v (noCover s) (workQueue s) (lastPoll s) (lastPrint s)
          (trace s).
Definition set_noCover (v : bool) (s : State) : State :=
  mkState (corpusSignal s) (maxSignal s) (newSignal s) (corpus s) (corpusHashes s)
          (allTriaged s) v (workQueue s) (lastPoll s) (lastPrint s)
          (trace s).
Definition set_workQueue (v : list WorkCandidate) (s : State) : State :=
  mkState (corpusSignal s) (maxSignal s) (newSignal s) (corpus s) (corpusHashes s)
          (allTriaged s) (noCover s) v (lastPoll s) (lastPrint s)
          (trace s).
Definition set_lastPoll (v : Z) (s : State) : State :=
  mkState (corpusSignal s) (maxSignal s) (newSignal s) (corpus s) (corpusHashes s)
          (allTriaged s) (noCover s) (workQueue s) v (lastPrint s)
          (trace s).
Definition set_lastPrint (v : Z) (s : State) : State :=
  mkState (corpusSignal s) (maxSignal s) (newSignal s) (corpus s) (corpusHashes s)
          (allTriaged s) (noCover s) (workQueue s) (lastPoll s) v (trace s).
Definition emit (e : Event) (s : State) : State :=
  mkState (corpusSignal s) (maxSignal s) (newSignal s) (corpus s) (corpusHashes s)
          (allTriaged s) (noCover s) (workQueue s) (lastPoll s) (lastPrint s)
          (trace s ++ [e]).

(** The state right after the [make] calls of [main]: empty sets, the
    zero values of the other globals. *)
Definition initState : State :=
  mkState ∅ ∅ ∅ [] ∅ 0%N false [] 0%Z 0%Z [].

(** ** The state-and-panic monad

    A Go [panic] ends the process; the state it leaves behind is kept
    so that what happened before it can still be stated. *)
Inductive Res (A : Type) : Type :=
| Ok (a : A) (s : State)
| Panic (msg : error) (s : State).
Arguments Ok {A} a s.
Arguments Panic {A} msg s.

Definition M (A : Type) : Type := State → Res A.

Definition ret {A} (a : A) : M A := λ s, Ok a s.
Definition bind {A B} (c : M A) (k : A → M B) : M B :=
  λ s, match c s with
       | Ok a s' => k a s'
       | Panic msg s' => Panic msg s'
       end.
Definition panic {A} (msg : error) : M A := λ s, Panic msg s.
Definition gets {A} (f : State → A) : M A := λ s, Ok (f s) s.
Definition modify (f : State → State) : M unit := λ s, Ok tt (f s).

Notation "x <- c ;; k" := (bind c (λ x, k))
  (at level 100, c at next level, right associativity).
Notation "c ;; k" := (bind c (λ _, k))
  (at level 100, right associativity).

(** [for _, x := range l { body }]. *)
Fixpoint forM_ {A} (l : list A) (body : A → M unit) : M unit :=
  match l with
  | [] => ret tt
  | x :: l' => body x ;; forM_ l' body
  end.

(** A loop that carries a local variable. *)
Fixpoint foldM {A B} (body : B → A → M B) (l : list A) (b : B) : M B :=
  match l with
  | [] => ret b
  | x :: l' => b' <- body b x ;; foldM body l' b'
  end.

(** The state a computation ends in, whether it returned or panicked. *)
Definition final {A} (r : Res A) : State :=
  match r with Ok _ s => s | Panic _ s => s end.

Definition panics {A} (r : Res A) : bool :=
  match r with Ok _ _ => false | Panic _ _ => true end.

(** ** [buildCallList] *)

(** [calls[target.Syscalls[n]] = true] for one id of the [-calls] list. *)
Definition enableCall (calls : gmap Syscall bool) (id : string)
  : M (gmap Syscall bool) :=
  match ParseUint id with
  | None => panic ("invalid syscall in -calls flag: " +:+ id)
  | Some n =>
      if (N.of_nat (length (Syscalls target)) <=? n)%N
      then panic ("invalid syscall in -calls flag: " +:+ id)
      else match Syscalls target !! N.to_nat n with
           | Some c => ret (<[c:=true]> calls)
           | None => panic "index out of range"
           end
  end.

(** [for c := range calls { if !keep[c] { delete(calls, c) } }]: every
    key the map had when the loop began is visited once. *)
Definition disableUnless (keep : gmap Syscall bool) (calls : gmap Syscall bool)
  : gmap Syscall bool :=
  foldl (λ m c, if index keep c then m else delete c m)
        calls (map_to_list calls).*1.

Definition buildCallList (enabledCalls : string) : M (gmap Syscall bool) :=
  calls <- (if decide (enabledCalls ≠ EmptyString)
            then foldM enableCall (Split enabledCalls) ∅
            else ret (foldl (λ m c, <[c:=true]> m) ∅ (Syscalls target))) ;;
  let calls :=
    match DetectSupportedSyscalls target with
    | (_, Some err) => calls
    | (supp, None) => disableUnless supp calls
    end in
  let trans := TransitivelyEnabledCalls target calls in
  ret (disableUnless trans calls).

(** ** [addInput] *)

Definition addInput (inp : RpcInput.t) : M unit :=
  nc <- gets noCover ;;
  if nc then panic "should not be called when coverage is disabled"
  else
    match Deserialize (RpcInput.Prog inp) with
    | inr err => panic err
    | inl prg =>
        let sig := Hash (RpcInput.Prog inp) in
        hs <- gets corpusHashes ;;
        (if decide (sig ∈ hs) then ret tt
         else modify (λ s, set_corpusHashes ({[sig]} ∪ corpusHashes s)
                             (set_corpus (corpus s ++ [prg]) s))) ;;
        mx <- gets maxSignal ;;
        let diff := SignalDiff mx (RpcInput.Signal inp) in
        if negb (length diff =? 0)%nat then
          modify (λ s, set_corpusSignal (SignalAdd (corpusSignal s) diff) s) ;;
          modify (λ s, set_maxSignal (SignalAdd (maxSignal s) diff) s)
        else ret tt
    end.

(** ** The candidate loops of [main] *)

(** Modelled from the spec: [workQueue.enqueue] lives in a file that is
    not at hand; the spec says it never blocks and that items of one
    class leave in the order they came, so the candidate class is a list
    extended at its end. *)
Definition enqueue (item : WorkCandidate) : M unit :=
  modify (λ s, set_workQueue (workQueue s ++ [item]) s).

(** The body of [for _, candidate := range r.Candidates], which [main]
    has twice: after [Manager.Connect] and after every [Manager.Poll]. *)
Definition absorbCandidate (candidate : RpcCandidate.t) : M unit :=
  match Deserialize (RpcCandidate.Prog candidate) with
  | inr err => panic err
  | inl prg =>
      nc <- gets noCover ;;
      if nc then modify (λ s, set_corpus (corpus s ++ [prg]) s)
      else enqueue (mkWorkCandidate prg (RpcCandidate.Minimized candidate))
  end.

(** [for _, s := range r.MaxSignal { maxSignal[s] = struct{}{} }]. *)
Definition absorbMaxSignal (sigs : list token) : M unit :=
  forM_ sigs (λ t, modify (λ s, set_maxSignal ({[t]} ∪ maxSignal s) s)).

(** ** Bootstrap: what [main] does with the [Manager.Connect] reply *)

Definition connectAbsorb (r : ConnectRes.t) : M unit :=
  forM_ (ConnectRes.Inputs r) addInput ;;
  absorbMaxSignal (ConnectRes.MaxSignal r).

(** [noCover = config.Flags&ipc.FlagSignal == 0]. *)
Definition detectNoCover (flags : Z) : M unit :=
  modify (set_noCover (Z.land flags FlagSignal =? 0)%Z).

Definition seedCandidates (r : ConnectRes.t) : M unit :=
  forM_ (ConnectRes.Candidates r) absorbCandidate.

(** The blocks of [main] that act on the shared state between the
    [Manager.Connect] call and the start of the procs, in the order in
    which [main] runs them.  What [main] does in between (the executor
    configuration, the version check and [Manager.Check], the second
    connection) can panic as well; it leaves the shared state alone and
    is not part of this composition. *)
Definition bootstrap (r : ConnectRes.t) (flags : Z) : M (gmap Syscall bool) :=
  calls <- buildCallList (ConnectRes.EnabledCalls r) ;;
  connectAbsorb r ;;
  detectNoCover flags ;;
  seedCandidates r ;;
  ret calls.

(** ** Leak scanning *)

(** [kmemleakScan] acts on the kernel, not on the shared state. *)
Definition kmemleakScan (report : bool) : M unit :=
  modify (emit (EvKmemleakScan report)).

Definition leakCallback : M unit :=
  t <- gets allTriaged ;;
  if negb (t =? 0)%N then kmemleakScan true else ret tt.

(** [if !*flagLeak { leakCallback = nil }]: what the gate is given. *)
Definition gateCallback : option (M unit) :=
  if flagLeak then Some leakCallback else None.

(** ** The poll loop *)

(** Lines 282-288: copy [newSignal] into the payload, then replace it by
    a fresh empty map. *)
Definition drainNewSignal : M (list token) :=
  ns <- gets newSignal ;;
  modify (set_newSignal ∅) ;;
  ret (elements ns).

(** Lines 313-335: absorb the returned max signal, inputs and
    candidates. *)
Definition absorbReply (r : PollRes.t) : M unit :=
  (if negb (length (PollRes.MaxSignal r) =? 0)%nat
   then absorbMaxSignal (PollRes.MaxSignal r) else ret tt) ;;
  forM_ (PollRes.NewInputs r) addInput ;;
  forM_ (PollRes.Candidates r) absorbCandidate.

(** Lines 336-341. *)
Definition markTriaged (r : PollRes.t) : M unit :=
  t <- gets allTriaged ;;
  if (length (PollRes.Candidates r) =? 0)%nat && (t =? 0)%N then
    (if flagLeak then kmemleakScan false else ret tt) ;;
    modify (λ s, emit (EvStoreAllTriaged 1) (set_allTriaged 1 s))
  else ret tt.

(** Lines 342-344. *)
Definition noteLastPoll (w : Wake) (r : PollRes.t) : M unit :=
  if (length (PollRes.NewInputs r) =? 0)%nat
     && (length (PollRes.Candidates r) =? 0)%nat
  then modify (set_lastPoll (finished w))
  else ret tt.

(** What [main] does with a [PollRes]. *)
Definition absorbPollRes (w : Wake) (r : PollRes.t) : M unit :=
  absorbReply r ;;
  markTriaged r ;;
  noteLastPoll w r.

(** The [PollArgs] that a poll started in state [s] sends. *)
Definition pollArgs (w : Wake) (s : State) : PollArgs.t :=
  PollArgs.mk (wantCandidates w) (elements (newSignal s)).

Definition pollManager (w : Wake) (needCandidates : bool) : M unit :=
  sig <- drainNewSignal ;;
  let a := PollArgs.mk needCandidates sig in
  modify (emit (EvPoll a)) ;;
  match call w a with
  | inr err => panic err
  | inl r => absorbPollRes w r
  end.

(** Lines 266-270: the keep-alive line for the manager.  The trace
    records that the line was logged, not the count it prints. *)
Definition keepAlive (w : Wake) : M unit :=
  lpr <- gets lastPrint ;;
  if bool_decide (flagOutput ≠ "stdout")
     && (10 * Second <? Since (woke w) lpr)%Z
  then
    modify (emit EvAlive) ;;
    modify (set_lastPrint (printed w))
  else ret tt.

(** One turn of [for { ... }] in [main]: the [select], the keep-alive
    block, and the poll behind its condition. *)
Definition pollLoopBody (w : Wake) : M unit :=
  let poll := fired w in
  keepAlive w ;;
  lp <- gets lastPoll ;;
  if poll || (10 * Second <? Since (now w) lp)%Z then
    let needCandidates := wantCandidates w in
    if poll && negb needCandidates then ret tt
    else pollManager w needCandidates
  else ret tt.

(** ** Sequences of operations on the shared state *)

Inductive Op :=
| OpAddInput (inp : RpcInput.t)
| OpAbsorbMaxSignal (sigs : list token)
| OpBootstrap (r : ConnectRes.t) (flags : Z)
| OpWake (w : Wake)
| OpLeakCallback.

Definition runOp (o : Op) : M unit :=
  match o with
  | OpAddInput inp => addInput inp
  | OpAbsorbMaxSignal sigs => absorbMaxSignal sigs
  | OpBootstrap r flags => bootstrap r flags ;; ret tt
  | OpWake w => pollLoopBody w
  | OpLeakCallback => leakCallback
  end.

Definition runOps (ops : list Op) : M unit := forM_ ops runOp.

(** A computation [keeps] a relation between states when the state it
    ends in, returning or panicking, is related to the one it began in. *)
Definition keeps (R : relation State) {A} (c : M A) : Prop :=
  ∀ s, R s (final (c s)).

(** A computation is [safe] when it never panics. *)
Definition safe {A} (c : M A) : Prop := ∀ s, panics (c s) = false.

(** The relation of two states that agree on one observation. *)
Definition same {A} (f : State → A) : relation State := λ s s', f s = f s'.

(** [maxSignal] only grows, and [corpusSignal] stays inside it once it
    is inside. *)
Definition signalsGrow (s s' : State) : Prop :=
  maxSignal s ⊆ maxSignal s' ∧
  (corpusSignal s ⊆ maxSignal s → corpusSignal s' ⊆ maxSignal s').

(** The trace is only ever extended. *)
Definition traceGrows (s s' : State) : Prop := trace s `prefix_of` trace s'.

(** Once [allTriaged] is not zero it keeps its value. *)
Definition latched (s s' : State) : Prop :=
  allTriaged s ≠ 0%N → allTriaged s' = allTriaged s.

(** An id that [buildCallList] accepts, and one that makes it panic. *)
Definition goodId (id : string) : Prop :=
  ∃ n, ParseUint id = Some n ∧ (n < N.of_nat (length (Syscalls target)))%N.
Definition badId (id : string) : Prop :=
  ParseUint id = None ∨
  ∃ n, ParseUint id = Some n ∧ (N.of_nat (length (Syscalls target)) ≤ n)%N.
Definition listedIn (ids : list string) (c : Syscall) : Prop :=
  ∃ id n, id ∈ ids ∧ ParseUint id = Some n ∧
          Syscalls target !! N.to_nat n = Some c.

(** ** Observations used by the properties of whole runs *)

(** The tokens and the hashes that a batch of inputs carries. *)
Definition batchSignal (inps : list RpcInput.t) : gset token :=
  foldr (λ inp U, list_to_set (RpcInput.Signal inp) ∪ U) ∅ inps.
Definition batchHashes (inps : list RpcInput.t) : gset Sig :=
  foldr (λ inp Hs, {[Hash (RpcInput.Prog inp)]} ∪ Hs) ∅ inps.

(** Nothing is ever taken out of the corpus, the hash set or the queue. *)
Definition appendOnly (s s' : State) : Prop :=
  corpus s `prefix_of` corpus s' ∧
  corpusHashes s ⊆ corpusHashes s' ∧
  workQueue s `prefix_of` workQueue s'.

(** The corpus grows at least as much as the hash set. *)
Definition hashesBacked (s s' : State) : Prop :=
  (size (corpusHashes s') + length (corpus s)
   ≤ size (corpusHashes s) + length (corpus s'))%nat.

(** The trace tells the same about [allTriaged] as the flag itself. *)
Definition phaseOK (s : State) : Prop :=
  leakPhase (trace s) = (if (allTriaged s =? 0)%N then Triaging else Reporting) ∧
  (allTriaged s < 2)%N.
Definition phaseKept (s s' : State) : Prop := phaseOK s → phaseOK s'.

(** * Properties *)

(** Solvers that take the whole context into account, kept away from
    the target where the goal does not speak of it. *)
Ltac no_target := try clear DetectSupportedSyscalls; try clear target.
Ltac sets := no_target; set_solver.
Ltac taut := no_target; tauto.

(** ** Signal sets as sets *)

Lemma SignalAdd_union (base : gset token) (signal : list token) :
  SignalAdd base signal = base ∪ list_to_set signal.
Proof.
  unfold SignalAdd. revert base.
  induction signal as [|t signal IH]; intros base; simpl.
  - sets.
  - rewrite IH. sets.
Qed.

Lemma SignalDiff_difference (base : gset token) (signal : list token) :
  list_to_set (SignalDiff base signal) = (list_to_set signal ∖ base : gset token).
Proof.
  unfold SignalDiff. apply set_eq. intros x.
  rewrite elem_of_list_to_set, list_elem_of_filter, elem_of_difference,
    elem_of_list_to_set. taut.
Qed.

Lemma SignalDiff_nil (base : gset token) (signal : list token) :
  SignalDiff base signal = [] → list_to_set signal ⊆ base.
Proof.
  intros E x Hx. apply elem_of_list_to_set in Hx.
  destruct (decide (x ∈ base)) as [|Hn]; [done|].
  assert (x ∈ SignalDiff base signal) as Hin
    by (unfold SignalDiff; apply list_elem_of_filter; done).
  rewrite E in Hin. by apply not_elem_of_nil in Hin.
Qed.

(** ** Relations kept by the monad's combinators *)

Section Keeps.
Context (R : relation State) `{!PreOrder R}.

Lemma keeps_ret {A} (a : A) : keeps R (ret a).
Proof. intros s. simpl. reflexivity. Qed.

Lemma keeps_panic {A} (msg : error) : keeps R (@panic A msg).
Proof. intros s. simpl. reflexivity. Qed.

Lemma keeps_gets {A} (f : State → A) : keeps R (gets f).
Proof. intros s. simpl. reflexivity. Qed.

Lemma keeps_modify (f : State → State) :
  (∀ s, R s (f s)) → keeps R (modify f).
Proof. intros Hf s. apply Hf. Qed.

Lemma keeps_bind {A B} (c : M A) (k : A → M B) :
  keeps R c → (∀ a, keeps R (k a)) → keeps R (bind c k).
Proof.
  intros Hc Hk s. unfold bind. specialize (Hc s).
  destruct (c s) as [a s'|msg s']; simpl in *; [|done].
  etrans; [exact Hc|apply Hk].
Qed.

Lemma keeps_forM {A} (l : list A) (body : A → M unit) :
  (∀ x, keeps R (body x)) → keeps R (forM_ l body).
Proof.
  intros Hb. induction l as [|x l IH]; simpl.
  - apply keeps_ret.
  - apply keeps_bind; [apply Hb|intros _; exact IH].
Qed.

Lemma keeps_foldM {A B} (body : B → A → M B) (l : list A) (b : B) :
  (∀ b x, keeps R (body b x)) → keeps R (foldM body l b).
Proof.
  intros Hb. revert b. induction l as [|x l IH]; intros b; simpl.
  - apply keeps_ret.
  - apply keeps_bind; [apply Hb|intros b'; apply IH].
Qed.

Lemma keeps_if {A} (b : bool) (c1 c2 : M A) :
  keeps R c1 → keeps R c2 → keeps R (if b then c1 else c2).
Proof. by destruct b. Qed.

Lemma keeps_sum {A B C} (x : A + B) (f : A → M C) (g : B → M C) :
  (∀ a, keeps R (f a)) → (∀ b, keeps R (g b)) →
  keeps R (match x with inl a => f a | inr b => g b end).
Proof. by destruct x. Qed.
End Keeps.

(** Breaks a computation down to the [modify] steps it is made of. *)
Ltac keeps_structure :=
  repeat match goal with
    | |- keeps _ (ret _) => apply keeps_ret; apply _
    | |- keeps _ (panic _) => apply keeps_panic; apply _
    | |- keeps _ (gets _) => apply keeps_gets; apply _
    | |- keeps _ (bind _ _) => apply keeps_bind; [apply _| |intros ?]
    | |- keeps _ (forM_ _ _) => apply keeps_forM; [apply _|intros ?]
    | |- keeps _ (foldM _ _ _) => apply keeps_foldM; [apply _|intros ? ?]
    | |- keeps _ (let _ := _ in _) => cbv zeta
    | |- keeps _ (if ?b then _ else _) => destruct b
    | |- keeps _ (match ?x with _ => _ end) => destruct x
    end.

#[local] Instance same_preorder {A} (f : State → A) : PreOrder (same f).
Proof.
  split; [by intros s|].
  intros s1 s2 s3 E1 E2. unfold same in *. congruence.
Qed.

Lemma final_bind {A B} (c : M A) (k : A → M B) (s : State) :
  final (bind c k s) =
  match c s with Ok a s1 => final (k a s1) | Panic _ s1 => s1 end.
Proof. unfold bind. by destruct (c s). Qed.

Lemma panics_bind {A B} (c : M A) (k : A → M B) (s : State) :
  panics (bind c k s) =
  match c s with Ok a s1 => panics (k a s1) | Panic _ _ => true end.
Proof. unfold bind. by destruct (c s). Qed.

Lemma polls_app (t1 t2 : list Event) : polls (t1 ++ t2) = polls t1 + polls t2.
Proof.
  induction t1 as [|e t1 IH]; simpl; [done|].
  destruct e; simpl; lia.
Qed.

(** Unfolds the operations of [fuzzer.go] that are plain compositions. *)
Ltac unfold_ops :=
  unfold runOp, bootstrap, connectAbsorb, detectNoCover, seedCandidates,
    pollLoopBody, keepAlive, pollManager, absorbPollRes, absorbReply, markTriaged,
    noteLastPoll, drainNewSignal, leakCallback, kmemleakScan, buildCallList,
    enableCall, addInput, absorbCandidate, enqueue, absorbMaxSignal.

(** Proves that an operation leaves an observation of the state alone,
    from the [modify] steps it is made of. *)
Ltac keeps_same :=
  unfold_ops; keeps_structure;
  apply keeps_modify; intros ?; unfold same; simpl;
  rewrite ?polls_app; simpl; try done; try lia.

(** ** Signal monotonicity *)

#[local] Instance signalsGrow_preorder : PreOrder signalsGrow.
Proof.
  split.
  - intros s. by split.
  - intros s1 s2 s3 [M12 I12] [M23 I23]. split; [sets|taut].
Qed.

Lemma addInput_signalsGrow (inp : RpcInput.t) : keeps signalsGrow (addInput inp).
Proof.
  intros [cs ms ns c hs at_ nc wq lp lpr tr]. unfold addInput, bind, gets. simpl.
  destruct nc; simpl; [reflexivity|].
  destruct (Deserialize (RpcInput.Prog inp)) as [prg|err]; simpl; [|reflexivity].
  destruct (decide (Hash (RpcInput.Prog inp) ∈ hs)); simpl;
    destruct (SignalDiff ms (RpcInput.Signal inp)) as [|t diff] eqn:E; simpl;
    rewrite ?SignalAdd_union; split; simpl; sets.
Qed.

Lemma absorbMaxSignal_signalsGrow (sigs : list token) :
  keeps signalsGrow (absorbMaxSignal sigs).
Proof.
  unfold absorbMaxSignal. keeps_structure.
  apply keeps_modify. intros s. split; simpl; sets.
Qed.

Lemma absorbCandidate_signalsGrow (candidate : RpcCandidate.t) :
  keeps signalsGrow (absorbCandidate candidate).
Proof.
  unfold absorbCandidate, enqueue. keeps_structure;
    apply keeps_modify; intros s; by split.
Qed.

Lemma buildCallList_same (enabledCalls : string) (R : relation State)
  `{!PreOrder R} : keeps R (buildCallList enabledCalls).
Proof.
  unfold buildCallList. keeps_structure.
  unfold enableCall. keeps_structure.
Qed.

Lemma runOp_signalsGrow (o : Op) : keeps signalsGrow (runOp o).
Proof.
  destruct o as [inp|sigs|r flags|w|]; simpl.
  - apply addInput_signalsGrow.
  - apply absorbMaxSignal_signalsGrow.
  - unfold bootstrap, connectAbsorb, detectNoCover, seedCandidates.
    keeps_structure;
      try apply addInput_signalsGrow;
      try apply absorbMaxSignal_signalsGrow;
      try apply absorbCandidate_signalsGrow;
      try (apply buildCallList_same; apply _).
    apply keeps_modify. intros s. by split.
  - unfold pollLoopBody, keepAlive, pollManager, absorbPollRes, absorbReply, markTriaged,
      noteLastPoll, drainNewSignal, kmemleakScan.
    keeps_structure;
      try apply addInput_signalsGrow;
      try apply absorbMaxSignal_signalsGrow;
      try apply absorbCandidate_signalsGrow;
      apply keeps_modify; intros s; by split.
  - unfold leakCallback, kmemleakScan. keeps_structure.
    apply keeps_modify. intros s. by split.
Qed.

(** C1. Run any operations from the initial state, then any further
    ones: the max signal of the later state contains that of the earlier
    one, and in both states the corpus signal is inside the max signal. *)
Theorem signal_monotonicity (ops1 ops2 : list Op) :
  let s1 := final (runOps ops1 initState) in
  let s2 := final (runOps ops2 s1) in
  maxSignal s1 ⊆ maxSignal s2 ∧
  corpusSignal s1 ⊆ maxSignal s1 ∧
  corpusSignal s2 ⊆ maxSignal s2.
Proof.
  intros s1 s2.
  assert (∀ ops, keeps signalsGrow (runOps ops)) as Hrun.
  { intros ops. unfold runOps. apply keeps_forM; [apply _|].
    apply runOp_signalsGrow. }
  destruct (Hrun ops1 initState) as [_ I1].
  destruct (Hrun ops2 s1) as [M2 I2].
  fold s1 in I1. fold s2 in M2, I2.
  assert (corpusSignal s1 ⊆ maxSignal s1) as Hs1 by (apply I1; simpl; sets).
  auto.
Qed.

(** ** The poll decision *)

Lemma absorbMaxSignal_eq (sigs : list token) (s : State) :
  absorbMaxSignal sigs s =
  Ok tt (set_maxSignal (maxSignal s ∪ list_to_set sigs) s).
Proof.
  unfold absorbMaxSignal. revert s.
  induction sigs as [|t sigs IH]; intros s; simpl.
  - unfold ret. f_equal. destruct s; unfold set_maxSignal; simpl.
    f_equal. sets.
  - unfold bind, modify. rewrite IH. f_equal.
    destruct s; unfold set_maxSignal; simpl. f_equal. sets.
Qed.

Lemma absorbPollRes_polls (w : Wake) (r : PollRes.t) :
  keeps (same (λ s, polls (trace s))) (absorbPollRes w r).
Proof. keeps_same. Qed.

Lemma absorbReply_lastPoll (r : PollRes.t) :
  keeps (same lastPoll) (absorbReply r).
Proof. keeps_same. Qed.

Lemma markTriaged_lastPoll (r : PollRes.t) :
  keeps (same lastPoll) (markTriaged r).
Proof. keeps_same. Qed.

Lemma markTriaged_safe (r : PollRes.t) : safe (markTriaged r).
Proof.
  intros s. unfold markTriaged, bind, gets, kmemleakScan, modify, ret.
  destruct (_ && _); [|done]. by destruct flagLeak.
Qed.

Lemma noteLastPoll_eq (w : Wake) (r : PollRes.t) (s : State) :
  noteLastPoll w r s =
  Ok tt (match PollRes.NewInputs r, PollRes.Candidates r with
         | [], [] => set_lastPoll (finished w) s
         | _, _ => s
         end).
Proof.
  unfold noteLastPoll.
  by destruct (PollRes.NewInputs r), (PollRes.Candidates r).
Qed.

Lemma absorbReply_idle (r : PollRes.t) (s : State) :
  PollRes.NewInputs r = [] → PollRes.Candidates r = [] →
  panics (absorbReply r s) = false.
Proof.
  intros Ei Ec. unfold absorbReply. rewrite Ei, Ec. simpl.
  unfold bind, ret.
  destruct (negb _); [by rewrite absorbMaxSignal_eq|done].
Qed.

Lemma absorbPollRes_lastPoll (w : Wake) (r : PollRes.t) (s : State) :
  lastPoll (final (absorbPollRes w r s)) =
  match PollRes.NewInputs r, PollRes.Candidates r with
  | [], [] => finished w
  | _, _ => lastPoll s
  end.
Proof.
  unfold absorbPollRes.
  rewrite final_bind.
  pose proof (absorbReply_lastPoll r s) as E1. unfold same in E1.
  destruct (absorbReply r s) as [[] s1|msg s1] eqn:Er; simpl in E1.
  - rewrite final_bind.
    pose proof (markTriaged_lastPoll r s1) as E2. unfold same in E2.
    pose proof (markTriaged_safe r s1) as S2.
    destruct (markTriaged r s1) as [[] s2|msg s2]; simpl in *; [|done].
    rewrite noteLastPoll_eq. simpl.
    destruct (PollRes.NewInputs r), (PollRes.Candidates r); simpl; congruence.
  - destruct (PollRes.NewInputs r) eqn:Ei; [|congruence].
    destruct (PollRes.Candidates r) eqn:Ec; [|congruence].
    pose proof (absorbReply_idle r s Ei Ec) as Hs. by rewrite Er in Hs.
Qed.

Lemma pollManager_final (w : Wake) (need : bool) (s : State) :
  final (pollManager w need s) =
  let a := PollArgs.mk need (elements (newSignal s)) in
  let s1 := emit (EvPoll a) (set_newSignal ∅ s) in
  match call w a with
  | inl r => final (absorbPollRes w r s1)
  | inr _ => s1
  end.
Proof.
  unfold pollManager, drainNewSignal, bind, gets, modify, ret. simpl.
  by destruct (call w _).
Qed.

Lemma pollManager_polls (w : Wake) (need : bool) (s : State) :
  polls (trace (final (pollManager w need s))) = S (polls (trace s)).
Proof.
  rewrite pollManager_final. cbv zeta.
  destruct (call w _) as [r|err].
  - rewrite <- (absorbPollRes_polls w r _). simpl.
    rewrite polls_app. simpl. lia.
  - simpl. rewrite polls_app. simpl. lia.
Qed.

(** The keep-alive block never panics; it logs its line and moves
    [lastPrint], or does nothing. *)
Lemma keepAlive_eq (w : Wake) (s : State) :
  keepAlive w s =
  Ok tt (if bool_decide (flagOutput ≠ "stdout")
            && (10 * Second <? Since (woke w) (lastPrint s))%Z
         then set_lastPrint (printed w) (emit EvAlive s) else s).
Proof.
  unfold keepAlive, bind, gets, modify, ret.
  by destruct (_ && _).
Qed.

Lemma keepAlive_cases (w : Wake) (s : State) :
  final (keepAlive w s) = s ∨
  final (keepAlive w s) = set_lastPrint (printed w) (emit EvAlive s).
Proof. rewrite keepAlive_eq. destruct (_ && _); [by right|by left]. Qed.

(** What the keep-alive block leaves alone. *)
Lemma keepAlive_frame (w : Wake) (s : State) :
  let s0 := final (keepAlive w s) in
  lastPoll s0 = lastPoll s ∧ newSignal s0 = newSignal s ∧
  polls (trace s0) = polls (trace s).
Proof.
  destruct (keepAlive_cases w s) as [-> | ->]; [done|]. simpl.
  rewrite polls_app. simpl. repeat split. lia.
Qed.

(** A turn of the loop is the keep-alive block, and then a poll or
    nothing. *)
Lemma pollLoopBody_final (w : Wake) (s : State) :
  final (pollLoopBody w s) =
  if fired w && wantCandidates w
     || negb (fired w) && (10 * Second <? Since (now w) (lastPoll s))%Z
  then final (pollManager w (wantCandidates w) (final (keepAlive w s)))
  else final (keepAlive w s).
Proof.
  destruct (keepAlive_frame w s) as (Hlp & _).
  revert Hlp. rewrite keepAlive_eq.
  unfold pollLoopBody, bind, gets. rewrite keepAlive_eq. simpl.
  intros ->.
  destruct (fired w), (wantCandidates w),
    (10 * Second <? Since (now w) (lastPoll s))%Z; reflexivity.
Qed.

(** C2, as the code has it. A turn of the poll loop calls the manager
    exactly when the pulse fired and candidates are wanted, or the
    ticker fired and more than ten seconds have passed since [lastPoll];
    a turn that does not call it leaves the state as it was, or as the
    keep-alive block left it.  [lastPoll] is set to the clock exactly
    when the manager was called and its answer held no inputs and no
    candidates, and keeps its value in every other case. *)
Theorem poll_turn (w : Wake) (s : State) :
  let s' := final (pollLoopBody w s) in
  let polled := polls (trace s') = S (polls (trace s)) in
  (polled ↔
     fired w = true ∧ wantCandidates w = true ∨
     fired w = false ∧ (10 * Second < Since (now w) (lastPoll s))%Z) ∧
  (polled ∨ s' = s ∨ s' = set_lastPrint (printed w) (emit EvAlive s)) ∧
  lastPoll s' =
    (if decide polled then
       match call w (pollArgs w s) with
       | inl r =>
           match PollRes.NewInputs r, PollRes.Candidates r with
           | [], [] => finished w
           | _, _ => lastPoll s
           end
       | inr _ => lastPoll s
       end
     else lastPoll s).
Proof.
  intros s' polled.
  pose proof (pollLoopBody_final w s) as Hbody.
  destruct (keepAlive_frame w s) as (Hlp & Hns & Hpolls).
  assert (polled ↔
          fired w && wantCandidates w
          || negb (fired w) && (10 * Second <? Since (now w) (lastPoll s))%Z
          = true) as Hdec.
  { unfold polled, s'. rewrite Hbody.
    destruct (_ || _).
    - split; [done|]. intros _. rewrite pollManager_polls. lia.
    - rewrite Hpolls. split; [intros E; exfalso; lia|done]. }
  split; [|split].
  - rewrite Hdec.
    rewrite orb_true_iff, !andb_true_iff, negb_true_iff, Z.ltb_lt. taut.
  - destruct (decide polled) as [|Hn]; [by left|right].
    unfold s'. rewrite Hbody.
    destruct (_ || _); [|apply keepAlive_cases].
    exfalso. apply Hn, Hdec. done.
  - destruct (decide polled) as [Hp|Hn].
    + apply Hdec in Hp. unfold s'. rewrite Hbody, Hp.
      rewrite pollManager_final. cbv zeta. rewrite Hns.
      fold (pollArgs w s).
      destruct (call w (pollArgs w s)) as [r|err]; [|done].
      rewrite absorbPollRes_lastPoll. simpl. by rewrite Hlp.
    + unfold s'. rewrite Hbody.
      destruct (_ || _); [|done]. exfalso. apply Hn, Hdec. done.
Qed.

(** ** [addInput] *)

(** Panics of [addInput] leave the state as it was. *)
Lemma addInput_panics (inp : RpcInput.t) (s : State) :
  panics (addInput inp s) = true ↔
  noCover s = true ∨ ∃ err, Deserialize (RpcInput.Prog inp) = inr err.
Proof.
  unfold addInput, bind, gets, panic, modify, ret.
  destruct (noCover s); simpl; [by split; [left|]|].
  destruct (Deserialize (RpcInput.Prog inp)) as [prg|err]; simpl.
  - destruct (decide _), (negb _); simpl; split; try done;
      intros [|[? ?]]; done.
  - split; [|done]. intros _. right. by exists err.
Qed.

(** What a returning [addInput] does to every part of the state. *)
Lemma addInput_returns (inp : RpcInput.t) (s : State) :
  panics (addInput inp s) = false →
  ∃ prg s',
    Deserialize (RpcInput.Prog inp) = inl prg ∧ noCover s = false ∧
    addInput inp s = Ok tt s' ∧
    corpus s' = (if decide (Hash (RpcInput.Prog inp) ∈ corpusHashes s)
                 then corpus s else corpus s ++ [prg]) ∧
    corpusHashes s' = {[Hash (RpcInput.Prog inp)]} ∪ corpusHashes s ∧
    maxSignal s' = maxSignal s ∪ list_to_set (RpcInput.Signal inp) ∧
    corpusSignal s' =
      corpusSignal s ∪ (list_to_set (RpcInput.Signal inp) ∖ maxSignal s) ∧
    newSignal s' = newSignal s ∧ allTriaged s' = allTriaged s ∧
    noCover s' = noCover s ∧ workQueue s' = workQueue s ∧
    lastPoll s' = lastPoll s ∧ trace s' = trace s.
Proof.
  destruct s as [cs ms ns c hs at_ nc wq lp lpr tr].
  unfold addInput, bind, gets, panic, modify, ret. simpl.
  destruct nc; simpl; [done|].
  destruct (Deserialize (RpcInput.Prog inp)) as [prg|err]; simpl; [|done].
  intros _. exists prg.
  pose proof (SignalDiff_difference ms (RpcInput.Signal inp)) as Hd.
  destruct (decide (Hash (RpcInput.Prog inp) ∈ hs)) as [Hin|Hin]; simpl;
    destruct (SignalDiff ms (RpcInput.Signal inp)) as [|t diff] eqn:E; simpl;
    (eexists; split; [done|]; split; [done|]; split; [reflexivity|]; simpl);
    rewrite ?SignalAdd_union, ?Hd;
    try (apply SignalDiff_nil in E); simpl in Hd;
    repeat split; try done;
    apply set_eq; intros x; destruct (decide (x ∈ ms)); sets.
Qed.

(** C8. [addInput] panics in exactly two cases: coverage is disabled, or
    the program bytes do not deserialize.  A candidate that does not
    deserialize makes the poll turn that received it, and likewise the
    bootstrap, panic: it is never skipped. *)
Theorem addInput_fatal (inp : RpcInput.t) (w : Wake) (r : PollRes.t)
    (cr : ConnectRes.t) (s : State) :
  (panics (addInput inp s) = true ↔
     noCover s = true ∨ ∃ err, Deserialize (RpcInput.Prog inp) = inr err) ∧
  (∀ candidate err,
     candidate ∈ PollRes.Candidates r →
     Deserialize (RpcCandidate.Prog candidate) = inr err →
     panics (absorbPollRes w r s) = true) ∧
  (∀ candidate err,
     candidate ∈ ConnectRes.Candidates cr →
     Deserialize (RpcCandidate.Prog candidate) = inr err →
     panics (seedCandidates cr s) = true).
Proof.
  assert (∀ cands candidate err s0,
            candidate ∈ cands →
            Deserialize (RpcCandidate.Prog candidate) = inr err →
            panics (forM_ cands absorbCandidate s0) = true) as Hloop.
  { intros cands candidate err.
    induction cands as [|c cands IH]; intros s0 Hin Hde.
    - by apply not_elem_of_nil in Hin.
    - simpl. rewrite panics_bind.
      destruct (absorbCandidate c s0) as [[] s1|msg s1] eqn:Ec; [|done].
      apply elem_of_cons in Hin as [->|Hin]; [|by apply IH].
      unfold absorbCandidate in Ec. rewrite Hde in Ec. done. }
  split; [apply addInput_panics|]. split.
  - intros candidate err Hin Hde.
    assert (panics (absorbReply r s) = true) as Hr.
    { unfold absorbReply. rewrite panics_bind.
      match goal with
      | |- context [match ?c s with _ => _ end] => destruct (c s) as [[] s1|]
      end; [|done].
      rewrite panics_bind.
      destruct (forM_ (PollRes.NewInputs r) addInput s1) as [[] s2|]; [|done].
      by apply (Hloop _ candidate err). }
    unfold absorbPollRes. rewrite panics_bind.
    by destruct (absorbReply r s).
  - intros candidate err Hin Hde. by apply (Hloop _ candidate err).
Qed.

(** A returning [addInput] whose hash is known already. *)
Lemma addInput_known (inp : RpcInput.t) (s : State) :
  Hash (RpcInput.Prog inp) ∈ corpusHashes s →
  panics (addInput inp s) = false →
  corpus (final (addInput inp s)) = corpus s ∧
  corpusHashes (final (addInput inp s)) = corpusHashes s.
Proof.
  intros Hin Hok.
  destruct (addInput_returns inp s Hok)
    as (prg & s1 & _ & _ & -> & Hc & Hh & _).
  simpl. rewrite decide_True in Hc by done.
  split; [done|]. rewrite Hh. sets.
Qed.

(** C9. When the hash of the bytes is already in [corpusHashes],
    a returning [addInput] leaves [corpus] and [corpusHashes] alone, and
    still adds the tokens of the input's signal that [maxSignal] lacks
    to both [maxSignal] and [corpusSignal]. *)
Theorem addInput_duplicate (inp : RpcInput.t) (s : State) :
  Hash (RpcInput.Prog inp) ∈ corpusHashes s →
  panics (addInput inp s) = false →
  let s' := final (addInput inp s) in
  corpus s' = corpus s ∧
  corpusHashes s' = corpusHashes s ∧
  maxSignal s' = maxSignal s ∪ list_to_set (RpcInput.Signal inp) ∧
  corpusSignal s' =
    corpusSignal s ∪ (list_to_set (RpcInput.Signal inp) ∖ maxSignal s).
Proof.
  intros Hin Hok s'.
  destruct (addInput_known inp s Hin Hok) as [Hc Hh].
  destruct (addInput_returns inp s Hok)
    as (prg & s1 & _ & _ & E & _ & _ & Hm & Hcs & _).
  unfold s' in *. rewrite E in *. simpl in *. done.
Qed.

(** Two calls of [addInput] with the same program bytes, the first of
    which returns, whatever [corpusHashes] held before. *)
Lemma addInput_again (inp1 inp2 : RpcInput.t) (s : State) :
  RpcInput.Prog inp1 = RpcInput.Prog inp2 →
  panics (addInput inp1 s) = false →
  let s1 := final (addInput inp1 s) in
  let s2 := final (addInput inp2 s1) in
  panics (addInput inp2 s1) = false ∧
  corpus s2 = corpus s1 ∧
  corpusHashes s2 = corpusHashes s1 ∧
  length (corpus s2) =
    length (corpus s) +
    (if decide (Hash (RpcInput.Prog inp1) ∈ corpusHashes s) then 0 else 1).
Proof.
  intros Eb Hok1.
  destruct (addInput_returns inp1 s Hok1)
    as (prg & s1 & Hde & Hnc & E1 & Hc1 & Hh1 & _ & _ & _ & _ & Hnc1 & _).
  rewrite E1. simpl.
  assert (panics (addInput inp2 s1) = false) as Hok2.
  { destruct (panics (addInput inp2 s1)) eqn:Hp; [|done].
    apply addInput_panics in Hp as [Hp|[err Hp]]; [congruence|].
    rewrite <- Eb in Hp. congruence. }
  assert (Hash (RpcInput.Prog inp2) ∈ corpusHashes s1) as Hin
    by (rewrite <- Eb, Hh1; sets).
  destruct (addInput_known inp2 s1 Hin Hok2) as (Hc2 & Hh2).
  repeat split; try done.
  rewrite Hc2, Hc1.
  destruct (decide _); [lia|]. rewrite length_app. simpl. lia.
Qed.

(** C3. Two calls of [addInput] with the same program bytes, which the
    corpus does not hold yet and with which the first call returns: the
    second call returns too and leaves [corpus] and [corpusHashes] as
    the first call left them, and over both calls the corpus grows by
    exactly one entry. *)
Theorem addInput_twice (inp1 inp2 : RpcInput.t) (s : State) :
  RpcInput.Prog inp1 = RpcInput.Prog inp2 →
  Hash (RpcInput.Prog inp1) ∉ corpusHashes s →
  panics (addInput inp1 s) = false →
  let s1 := final (addInput inp1 s) in
  let s2 := final (addInput inp2 s1) in
  panics (addInput inp2 s1) = false ∧
  corpus s2 = corpus s1 ∧
  corpusHashes s2 = corpusHashes s1 ∧
  length (corpus s2) = length (corpus s) + 1.
Proof.
  intros Eb Hfresh Hok1.
  pose proof (addInput_again inp1 inp2 s Eb Hok1) as Hagain.
  cbv zeta in Hagain |- *.
  rewrite decide_False in Hagain by done. exact Hagain.
Qed.

(** ** Draining [newSignal] *)

Lemma absorbPollRes_newSignal (w : Wake) (r : PollRes.t) :
  keeps (same newSignal) (absorbPollRes w r).
Proof. keeps_same. Qed.

#[local] Instance traceGrows_preorder : PreOrder traceGrows.
Proof.
  split.
  - intros s. unfold traceGrows. done.
  - intros s1 s2 s3 P12 P23. unfold traceGrows in *. by etrans.
Qed.

Lemma absorbPollRes_trace (w : Wake) (r : PollRes.t) :
  keeps traceGrows (absorbPollRes w r).
Proof.
  unfold_ops; keeps_structure;
    apply keeps_modify; intros ?; unfold traceGrows; simpl; try done;
    by apply prefix_app_r.
Qed.

(** C4. A drain returns exactly the tokens of [newSignal], each once,
    and empties it: a second drain right after returns nothing; and
    whatever is added to the emptied set before the next drain is
    exactly what that drain returns.  In a poll the drained tokens are
    the [MaxSignal] of the arguments sent, and [newSignal] is empty when
    the poll is over. *)
Theorem drain_law (w : Wake) (need : bool) (s : State) :
  ∃ payload s1,
    drainNewSignal s = Ok payload s1 ∧
    (∀ t, t ∈ payload ↔ t ∈ newSignal s) ∧
    NoDup payload ∧
    newSignal s1 = ∅ ∧
    drainNewSignal s1 = Ok [] s1 ∧
    (∀ s2 published,
       newSignal s2 = newSignal s1 ∪ published →
       ∃ payload2 s3,
         drainNewSignal s2 = Ok payload2 s3 ∧
         ∀ t, t ∈ payload2 ↔ t ∈ published) ∧
    (let s' := final (pollManager w need s) in
     newSignal s' = ∅ ∧
     trace s ++ [EvPoll (PollArgs.mk need payload)] `prefix_of` trace s').
Proof.
  exists (elements (newSignal s)), (set_newSignal ∅ s).
  split; [done|]. split; [intros t; apply elem_of_elements|].
  split; [apply NoDup_elements|]. split; [done|].
  split; [|split].
  - unfold drainNewSignal, bind, gets, modify, ret. simpl.
    by rewrite elements_empty.
  - intros s2 published E. eexists _, _. split; [done|].
    intros t. rewrite elem_of_elements, E. simpl. sets.
  - intros s'. unfold s'. rewrite pollManager_final. cbv zeta.
    destruct (call w _) as [r|err]; [|done].
    split.
    + by rewrite <- (absorbPollRes_newSignal w r _).
    + exact (absorbPollRes_trace w r
               (emit (EvPoll (PollArgs.mk need (elements (newSignal s))))
                     (set_newSignal ∅ s))).
Qed.

(** ** The [allTriaged] latch *)

Lemma absorbReply_allTriaged (r : PollRes.t) :
  keeps (same allTriaged) (absorbReply r).
Proof. keeps_same. Qed.

Lemma absorbReply_trace (r : PollRes.t) : keeps (same trace) (absorbReply r).
Proof. keeps_same. Qed.

#[local] Instance latched_preorder : PreOrder latched.
Proof.
  split; [by intros s|].
  intros s1 s2 s3 L12 L23 Hnz. unfold latched in *.
  rewrite L23; rewrite L12; done.
Qed.

Lemma markTriaged_latched (r : PollRes.t) : keeps latched (markTriaged r).
Proof.
  intros s Hnz. unfold markTriaged, bind, gets, kmemleakScan, modify, ret.
  destruct (allTriaged s =? 0)%N eqn:E; [by apply N.eqb_eq in E|].
  by rewrite andb_false_r.
Qed.

Lemma runOp_latched (o : Op) : keeps latched (runOp o).
Proof.
  destruct o as [inp|sigs|r flags|w|];
    unfold runOp, bootstrap, connectAbsorb, detectNoCover, seedCandidates,
      pollLoopBody, keepAlive, pollManager, absorbPollRes, absorbReply,
      noteLastPoll, drainNewSignal, leakCallback, kmemleakScan, buildCallList,
      enableCall, addInput, absorbCandidate, enqueue, absorbMaxSignal;
    keeps_structure; try apply markTriaged_latched;
    apply keeps_modify; intros ? ?; done.
Qed.

(** C5. [allTriaged] starts at zero.  Handling a poll result without
    candidates while it is zero sets it to one, after a
    [kmemleakScan(false)] when [-leak] is given; a result with
    candidates, or a flag that is already set, leaves flag and trace
    alone.  No operation changes the flag once it is not zero.  The leak
    callback scans exactly when the flag is not zero, and without
    [-leak] the gate gets no callback. *)
Theorem allTriaged_latch (w : Wake) (r : PollRes.t) (ops : list Op) (s : State) :
  allTriaged initState = 0%N ∧
  (allTriaged s = 0%N → PollRes.Candidates r = [] →
   panics (absorbPollRes w r s) = false →
   let s' := final (absorbPollRes w r s) in
   allTriaged s' = 1%N ∧
   trace s' = trace s ++ (if flagLeak then [EvKmemleakScan false] else [])
                      ++ [EvStoreAllTriaged 1]) ∧
  (PollRes.Candidates r ≠ [] ∨ allTriaged s ≠ 0%N →
   let s' := final (absorbPollRes w r s) in
   allTriaged s' = allTriaged s ∧ trace s' = trace s) ∧
  (allTriaged s ≠ 0%N → allTriaged (final (runOps ops s)) = allTriaged s) ∧
  trace (final (leakCallback s)) =
    trace s ++ (if (allTriaged s =? 0)%N then [] else [EvKmemleakScan true]) ∧
  (flagLeak = false → gateCallback = None).
Proof.
  assert (∀ s1 : State,
            final ((markTriaged r ;; noteLastPoll w r) s1) =
            let s2 := final (markTriaged r s1) in
            match PollRes.NewInputs r, PollRes.Candidates r with
            | [], [] => set_lastPoll (finished w) s2
            | _, _ => s2
            end) as Htail.
  { intros s1. rewrite final_bind.
    pose proof (markTriaged_safe r s1) as Hs.
    destruct (markTriaged r s1) as [[] s2|]; [|done].
    by rewrite noteLastPoll_eq. }
  split; [done|]. split; [|split; [|split; [|split]]].
  - intros Hz Hc Hok s'.
    unfold s', absorbPollRes in *. rewrite final_bind.
    rewrite panics_bind in Hok.
    pose proof (absorbReply_allTriaged r s) as Ha.
    pose proof (absorbReply_trace r s) as Ht.
    unfold same in Ha, Ht.
    destruct (absorbReply r s) as [[] s1|]; [|done]. simpl in Ha, Ht.
    rewrite Htail. cbv zeta.
    assert (final (markTriaged r s1) =
            emit (EvStoreAllTriaged 1)
              (set_allTriaged 1
                 (if flagLeak then emit (EvKmemleakScan false) s1 else s1)))
      as ->.
    { unfold markTriaged, bind, gets, kmemleakScan, modify, ret.
      rewrite Hc, <- Ha, Hz. simpl. by destruct flagLeak. }
    rewrite Ht.
    destruct (PollRes.NewInputs r), (PollRes.Candidates r), flagLeak; simpl;
      rewrite <- ?app_assoc; done.
  - intros Hcase s'.
    unfold s', absorbPollRes. rewrite final_bind.
    pose proof (absorbReply_allTriaged r s) as Ha.
    pose proof (absorbReply_trace r s) as Ht.
    unfold same in Ha, Ht.
    destruct (absorbReply r s) as [[] s1|]; [|done]. simpl in Ha, Ht.
    rewrite Htail. cbv zeta.
    assert (final (markTriaged r s1) = s1) as ->.
    { unfold markTriaged, bind, gets, kmemleakScan, modify, ret.
      destruct Hcase as [Hc|Hnz].
      - by destruct (PollRes.Candidates r).
      - rewrite <- Ha. apply N.eqb_neq in Hnz. rewrite Hnz.
        by rewrite andb_false_r. }
    by destruct (PollRes.NewInputs r), (PollRes.Candidates r).
  - intros Hnz.
    assert (keeps latched (runOps ops)) as Hk
      by (unfold runOps; apply keeps_forM; [apply _|apply runOp_latched]).
    by apply Hk.
  - unfold leakCallback, bind, gets, kmemleakScan, modify, ret.
    destruct (allTriaged s =? 0)%N; simpl; [by rewrite app_nil_r|done].
  - intros E. unfold gateCallback. by rewrite E.
Qed.

(** ** Candidates *)

Lemma absorbCandidate_eq (c : RpcCandidate.t) (s : State) :
  absorbCandidate c s =
  match Deserialize (RpcCandidate.Prog c) with
  | inr err => Panic err s
  | inl prg =>
      Ok tt (if noCover s then set_corpus (corpus s ++ [prg]) s
             else set_workQueue
                    (workQueue s ++
                     [mkWorkCandidate prg (RpcCandidate.Minimized c)]) s)
  end.
Proof.
  unfold absorbCandidate, bind, gets, modify, enqueue, panic.
  destruct (Deserialize _); [|done]. by destruct (noCover s).
Qed.

(** A returning candidate loop, in closed form. *)
Lemma candidates_loop (cands : list RpcCandidate.t) (s : State) :
  panics (forM_ cands absorbCandidate s) = false →
  ∃ progs,
    Forall2 (λ c prg, Deserialize (RpcCandidate.Prog c) = inl prg) cands progs ∧
    forM_ cands absorbCandidate s =
    Ok tt (if noCover s then set_corpus (corpus s ++ progs) s
           else set_workQueue
                  (workQueue s ++
                   zip_with mkWorkCandidate progs (RpcCandidate.Minimized <$> cands))
                  s).
Proof.
  revert s. induction cands as [|c cands IH]; intros s Hok.
  - exists []. split; [constructor|]. simpl. unfold ret. f_equal.
    destruct s as [cs ms ns co hs at_ nc wq lp lpr tr]; simpl.
    destruct nc; unfold set_corpus, set_workQueue; simpl;
      by rewrite app_nil_r.
  - simpl forM_ in Hok |- *. rewrite panics_bind in Hok. unfold bind.
    rewrite absorbCandidate_eq in Hok |- *.
    destruct (Deserialize (RpcCandidate.Prog c)) as [prg|err] eqn:Hde;
      [|done].
    destruct (IH _ Hok) as (progs & Hall & ->).
    exists (prg :: progs). split; [by constructor|]. f_equal.
    destruct s as [cs ms ns co hs at_ nc wq lp lpr tr]; simpl.
    destruct nc; simpl; unfold set_corpus, set_workQueue; simpl;
      by rewrite <- app_assoc.
Qed.

Lemma absorbReply_front (r : PollRes.t) (s : State) :
  (if negb (length (PollRes.MaxSignal r) =? 0)%nat
   then absorbMaxSignal (PollRes.MaxSignal r) else ret tt) s =
  Ok tt (set_maxSignal (maxSignal s ∪ list_to_set (PollRes.MaxSignal r)) s).
Proof.
  destruct (PollRes.MaxSignal r) as [|t sigs] eqn:E.
  - simpl. unfold ret. f_equal. destruct s; unfold set_maxSignal; simpl.
    f_equal. sets.
  - cbn [length Nat.eqb negb]. apply absorbMaxSignal_eq.
Qed.

Lemma addInputs_noCover (inps : list RpcInput.t) :
  keeps (same noCover) (forM_ inps addInput).
Proof. keeps_same. Qed.

Lemma addInputs_signalsGrow (inps : list RpcInput.t) :
  keeps signalsGrow (forM_ inps addInput).
Proof. apply keeps_forM; [apply _|apply addInput_signalsGrow]. Qed.


(** C10. With coverage disabled the candidate loop appends every
    deserialized candidate to the corpus and never touches
    [corpusHashes]: the same candidate twice gives two corpus entries,
    at the bootstrap and in a poll alike, and any returning run of the
    loop grows the corpus by the number of candidates. *)
Theorem candidates_not_deduplicated (candidate : RpcCandidate.t)
    (prg : Program) (cands : list RpcCandidate.t) (w : Wake)
    (mx : list token) (enabled : string) (s : State) :
  noCover s = true →
  Deserialize (RpcCandidate.Prog candidate) = inl prg →
  (let s' := final (seedCandidates
                      (ConnectRes.mk enabled [] mx [candidate; candidate]) s) in
   corpus s' = corpus s ++ [prg; prg] ∧ corpusHashes s' = corpusHashes s) ∧
  (let s' := final (absorbPollRes w
                      (PollRes.mk [candidate; candidate] [] mx) s) in
   corpus s' = corpus s ++ [prg; prg] ∧ corpusHashes s' = corpusHashes s) ∧
  (panics (forM_ cands absorbCandidate s) = false →
   let s' := final (forM_ cands absorbCandidate s) in
   length (corpus s') = length (corpus s) + length cands ∧
   corpusHashes s' = corpusHashes s).
Proof.
  intros Hnc Hde.
  assert (forM_ [candidate; candidate] absorbCandidate s =
          Ok tt (set_corpus (corpus s ++ [prg; prg]) s)) as Htwice.
  { simpl. unfold bind, absorbCandidate, bind, gets, modify, ret.
    rewrite Hde, Hnc. simpl. rewrite Hnc. f_equal.
    unfold set_corpus. simpl. by rewrite <- app_assoc. }
  split; [|split].
  - unfold seedCandidates. simpl ConnectRes.Candidates. by rewrite Htwice.
  - intros s'. unfold s', absorbPollRes. rewrite final_bind.
    assert (absorbReply (PollRes.mk [candidate; candidate] [] mx) s =
            Ok tt (set_corpus (corpus s ++ [prg; prg])
                     (set_maxSignal (maxSignal s ∪ list_to_set mx) s))) as ->.
    { unfold absorbReply. unfold bind at 1.
      rewrite absorbReply_front. simpl PollRes.NewInputs.
      simpl PollRes.Candidates. simpl PollRes.MaxSignal.
      simpl forM_ at 1. unfold bind at 1. unfold ret at 1.
      set (s0 := set_maxSignal _ s).
      simpl. unfold bind, absorbCandidate, bind, gets, modify, ret.
      rewrite Hde. simpl. rewrite Hnc. simpl. rewrite Hnc. f_equal.
      unfold set_corpus. simpl. by rewrite <- app_assoc. }
    set (s1 := set_corpus _ _).
    pose proof (markTriaged_safe (PollRes.mk [candidate; candidate] [] mx) s1)
      as Hs.
    assert (keeps (same corpus) (markTriaged (PollRes.mk [candidate; candidate] [] mx)))
      as Hc by keeps_same.
    assert (keeps (same corpusHashes) (markTriaged (PollRes.mk [candidate; candidate] [] mx)))
      as Hh by keeps_same.
    specialize (Hc s1). specialize (Hh s1). unfold same in Hc, Hh.
    rewrite final_bind.
    destruct (markTriaged _ s1) as [[] s2|]; [|done].
    rewrite noteLastPoll_eq. simpl in *. by rewrite <- Hc, <- Hh.
  - intros Hok s'. unfold s'.
    destruct (candidates_loop cands s Hok) as (progs & Hall & ->).
    rewrite Hnc. simpl. rewrite length_app.
    by rewrite (Forall2_length _ _ _ Hall).
Qed.

(** ** [buildCallList] *)

Lemma index_true (m : gmap Syscall bool) (c : Syscall) :
  index m c = true ↔ m !! c = Some true.
Proof.
  unfold index. destruct (m !! c) as [[]|]; simpl; split; congruence.
Qed.

Lemma disableUnless_lookup (keep calls : gmap Syscall bool) (c : Syscall) :
  disableUnless keep calls !! c = if index keep c then calls !! c else None.
Proof.
  unfold disableUnless.
  assert (∀ (l : list Syscall) (m : gmap Syscall bool),
            foldl (λ m c, if index keep c then m else delete c m) m l !! c =
            if decide (c ∈ l ∧ index keep c = false) then None else m !! c)
    as Hfold.
  { induction l as [|k l IH]; intros m; cbn [foldl].
    - case_decide as Hc; [|done]. destruct Hc as [Hin _].
      by apply not_elem_of_nil in Hin.
    - rewrite IH.
      destruct (index keep k) eqn:Ek.
      + clear IH; repeat case_decide; try done; exfalso; set_unfold;
          intuition congruence.
      + destruct (decide (c = k)) as [->|Hne].
        * rewrite lookup_delete_eq.
          clear IH; repeat case_decide; try done; exfalso; set_unfold;
          intuition congruence.
        * rewrite lookup_delete_ne by done.
          clear IH; repeat case_decide; try done; exfalso; set_unfold;
          intuition congruence. }
  rewrite Hfold. clear Hfold. destruct (index keep c) eqn:Ek.
  - destruct (decide _) as [[_ Hf]|_]; [discriminate Hf|done].
  - destruct (decide _) as [|Hn]; [done|].
    destruct (calls !! c) as [b|] eqn:El; [|done].
    exfalso. apply Hn. split; [|done].
    apply list_elem_of_fmap. exists (c, b). split; [done|].
    by apply elem_of_map_to_list.
Qed.

Lemma good_not_bad (id : string) : goodId id → ¬ badId id.
Proof.
  intros (n & E & Hlt) [E'|(n' & E' & Hle)]; [congruence|].
  assert (n' = n) as -> by congruence. lia.
Qed.

Lemma enableCall_cases (calls : gmap Syscall bool) (id : string) (s : State) :
  match enableCall calls id s with
  | Ok calls' s' =>
      s' = s ∧ ∃ n c, ParseUint id = Some n ∧
                      (n < N.of_nat (length (Syscalls target)))%N ∧
                      Syscalls target !! N.to_nat n = Some c ∧
                      calls' = <[c:=true]> calls
  | Panic _ s' => s' = s ∧ badId id
  end.
Proof.
  unfold enableCall, badId, panic, ret.
  destruct (ParseUint id) as [n|] eqn:E; [|by split; [|left]].
  destruct (N.of_nat (length (Syscalls target)) <=? n)%N eqn:Hle.
  - apply N.leb_le in Hle. split; [done|]. right. by exists n.
  - apply N.leb_gt in Hle.
    destruct (Syscalls target !! N.to_nat n) as [c|] eqn:El.
    + split; [done|]. by exists n, c.
    + apply lookup_ge_None in El. lia.
Qed.

Lemma enableCalls_cases (ids : list string) (calls : gmap Syscall bool)
    (s : State) :
  match foldM enableCall ids calls s with
  | Ok calls' s' =>
      s' = s ∧ Forall goodId ids ∧
      (∀ c, calls' !! c = Some true ↔
            calls !! c = Some true ∨ listedIn ids c) ∧
      ((∀ c b, calls !! c = Some b → b = true) →
       ∀ c b, calls' !! c = Some b → b = true)
  | Panic _ s' => s' = s ∧ Exists badId ids
  end.
Proof.
  revert calls. induction ids as [|id ids IH]; intros calls; simpl.
  - unfold ret. split; [done|]. split; [constructor|]. split; [|done].
    intros c. split; [by left|]. intros [|(id & n & Hin & _)]; [done|].
    by apply not_elem_of_nil in Hin.
  - unfold bind. pose proof (enableCall_cases calls id s) as Hone.
    destruct (enableCall calls id s) as [calls1 s1|msg s1].
    + destruct Hone as (-> & n & c0 & En & Hlt & El & ->).
      specialize (IH (<[c0:=true]> calls)).
      destruct (foldM enableCall ids _ s) as [calls' s'|msg s'].
      * destruct IH as (-> & Hall & Hlook & Htrue).
        split; [done|]. split; [constructor; [by exists n|done]|]. split.
        -- intros c. rewrite Hlook. split.
           ++ intros [Hins|(id' & n' & Hin & E' & El')].
              ** destruct (decide (c0 = c)) as [->|Hne].
                 --- right. exists id, n. split; [by left|done].
                 --- rewrite lookup_insert_ne in Hins by done. by left.
              ** right. exists id', n'. split; [by right|done].
           ++ intros [Hc|(id' & n' & Hin & E' & El')].
              ** left. destruct (decide (c0 = c)) as [->|Hne].
                 --- by rewrite lookup_insert_eq.
                 --- by rewrite lookup_insert_ne.
              ** apply elem_of_cons in Hin as [->|Hin].
                 --- left. assert (n' = n) as -> by congruence.
                     assert (c = c0) as -> by congruence.
                     by rewrite lookup_insert_eq.
                 --- right. by exists id', n'.
        -- intros Hc. apply Htrue. intros c b.
           destruct (decide (c0 = c)) as [->|Hne].
           ++ rewrite lookup_insert_eq. congruence.
           ++ rewrite lookup_insert_ne by done. apply Hc.
      * destruct IH as (-> & Hex). split; [done|]. by right.
    + destruct Hone as (-> & Hbad). split; [done|]. by left.
Qed.

Lemma enableAll_lookup (l : list Syscall) (calls : gmap Syscall bool)
    (c : Syscall) :
  foldl (λ m c, <[c:=true]> m) calls l !! c =
  if decide (c ∈ l) then Some true else calls !! c.
Proof.
  revert calls. induction l as [|k l IH]; intros calls; cbn [foldl].
  - case_decide as Hc; [|done]. by apply not_elem_of_nil in Hc.
  - rewrite IH.
    destruct (decide (k = c)) as [->|Hne].
    + rewrite lookup_insert_eq.
      clear IH; repeat case_decide; try done; exfalso; set_unfold;
          intuition congruence.
    + rewrite lookup_insert_ne by done.
      clear IH; repeat case_decide; try done; exfalso; set_unfold;
          intuition congruence.
Qed.

(** C6, as the code has it. [buildCallList] panics exactly when the
    [-calls] string is not empty and one of its comma-separated ids does
    not parse or is not below the number of syscalls.  Otherwise it
    keeps, of the manager's enabled calls (all of [target.Syscalls] for
    the empty string), those the host supports, where host detection
    returned no error, or all of them, where it returned one; and of
    these it returns the ones that [TransitivelyEnabledCalls] marks. *)
Theorem buildCallList_spec (enabledCalls : string) (s : State) :
  let enabled c :=
    if decide (enabledCalls = EmptyString) then c ∈ Syscalls target
    else listedIn (Split enabledCalls) c in
  let hostok c :=
    match DetectSupportedSyscalls target with
    | (supp, None) => index supp c = true
    | (_, Some _) => True
    end in
  (panics (buildCallList enabledCalls s) = true ↔
     enabledCalls ≠ EmptyString ∧
     ∃ id, id ∈ Split enabledCalls ∧ badId id) ∧
  (∀ calls s',
     buildCallList enabledCalls s = Ok calls s' →
     s' = s ∧
     ∃ sieved : gmap Syscall bool,
       (∀ c, sieved !! c = Some true ↔ enabled c ∧ hostok c) ∧
       (∀ c b, sieved !! c = Some b → b = true) ∧
       (∀ c, calls !! c = Some true ↔
             sieved !! c = Some true ∧
             index (TransitivelyEnabledCalls target sieved) c = true) ∧
       (∀ c b, calls !! c = Some b → b = true)).
Proof.
  intros enabled hostok.
  assert (∀ calls0 : gmap Syscall bool,
            (∀ c, calls0 !! c = Some true ↔ enabled c) →
            (∀ c b, calls0 !! c = Some b → b = true) →
            ∃ sieved : gmap Syscall bool,
              sieved = match DetectSupportedSyscalls target with
                       | (_, Some _) => calls0
                       | (supp, None) => disableUnless supp calls0
                       end ∧
              (∀ c, sieved !! c = Some true ↔ enabled c ∧ hostok c) ∧
              (∀ c b, sieved !! c = Some b → b = true) ∧
              (∀ c, disableUnless (TransitivelyEnabledCalls target sieved) sieved !! c
                    = Some true ↔
                    sieved !! c = Some true ∧
                    index (TransitivelyEnabledCalls target sieved) c = true) ∧
              (∀ c b, disableUnless (TransitivelyEnabledCalls target sieved) sieved !! c
                      = Some b → b = true)) as Hsieve.
  { intros calls0 Hen Htrue. eexists. split; [reflexivity|].
    assert (∀ (keep m : gmap Syscall bool),
              (∀ c b, m !! c = Some b → b = true) →
              ∀ c b, disableUnless keep m !! c = Some b → b = true) as Hkeep.
    { intros keep m Hm c b. rewrite disableUnless_lookup.
      destruct (index keep c); [apply Hm|done]. }
    assert (∀ (keep m : gmap Syscall bool) c,
              disableUnless keep m !! c = Some true ↔
              m !! c = Some true ∧ index keep c = true) as Hlook.
    { intros keep m c. rewrite disableUnless_lookup.
      destruct (index keep c); split; try taut; try done.
      by intros [_ ?]. }
    unfold hostok.
    destruct (DetectSupportedSyscalls target) as [supp [err|]].
    - split; [intros c; rewrite Hen; taut|]. split; [done|].
      split; [apply Hlook|by apply Hkeep].
    - split; [intros c; rewrite Hlook, Hen; taut|].
      split; [by apply Hkeep|].
      split; [apply Hlook|]. apply Hkeep. by apply Hkeep. }
  unfold buildCallList. unfold bind, ret.
  destruct (decide (enabledCalls ≠ EmptyString)) as [Hne|He].
  - pose proof (enableCalls_cases (Split enabledCalls) ∅ s) as Hcases.
    assert (∀ c, enabled c ↔ listedIn (Split enabledCalls) c) as Hen
      by (intros c; unfold enabled; by rewrite decide_False).
    destruct (foldM enableCall (Split enabledCalls) ∅ s)
      as [calls0 s0|msg s0]; simpl.
    + destruct Hcases as (-> & Hall & Hlook & Htrue). split.
      * split; [done|]. intros (_ & id & Hin & Hbad). exfalso.
        rewrite Forall_forall in Hall. by apply (good_not_bad id); auto.
      * intros calls s' [= <- <-]. split; [done|].
        destruct (Hsieve calls0) as (sieved & -> & H1 & H2 & H3 & H4).
        -- intros c. rewrite Hen, Hlook, lookup_empty. split; [|by right].
           by intros [|].
        -- apply Htrue. intros c b. by rewrite lookup_empty.
        -- by eexists.
    + destruct Hcases as (-> & Hex). split; [|done].
      split; [|done]. intros _. split; [done|].
      by apply Exists_exists in Hex.
  - apply dec_stable in He. simpl.
    assert (∀ c, enabled c ↔ c ∈ Syscalls target) as Hen
      by (intros c; unfold enabled; by rewrite decide_True).
    split.
    + split; [done|]. by intros [? _].
    + intros calls s' [= <- <-]. split; [done|].
      destruct (Hsieve (foldl (λ m c, <[c:=true]> m) ∅ (Syscalls target)))
        as (sieved & -> & H1 & H2 & H3 & H4).
      * intros c. rewrite Hen, enableAll_lookup.
        destruct (decide (c ∈ Syscalls target)); [done|].
        rewrite lookup_empty. split; done.
      * intros c b. rewrite enableAll_lookup.
        destruct (decide (c ∈ Syscalls target)); [congruence|].
        by rewrite lookup_empty.
      * by eexists.
Qed.

(** * Further properties of the same code *)

(** ** Batches of inputs *)

Lemma elem_of_batchSignal (inps : list RpcInput.t) (t : token) :
  t ∈ batchSignal inps ↔ ∃ inp, inp ∈ inps ∧ t ∈ RpcInput.Signal inp.
Proof.
  induction inps as [|inp inps IH]; simpl.
  - split; [sets|]. intros (inp & Hin & _). by apply not_elem_of_nil in Hin.
  - rewrite elem_of_union, elem_of_list_to_set, IH. split.
    + intros [Ht|(i & Hi & Ht)]; [exists inp|exists i];
        (split; [|done]); [by left|by right].
    + intros (i & Hi & Ht). apply elem_of_cons in Hi as [->|Hi];
        [by left|right; by exists i].
Qed.

Lemma elem_of_batchHashes (inps : list RpcInput.t) (h : Sig) :
  h ∈ batchHashes inps ↔ ∃ inp, inp ∈ inps ∧ h = Hash (RpcInput.Prog inp).
Proof.
  induction inps as [|inp inps IH]; simpl.
  - split; [sets|]. intros (inp & Hin & _). by apply not_elem_of_nil in Hin.
  - rewrite elem_of_union, elem_of_singleton, IH. split.
    + intros [Ht|(i & Hi & Ht)]; [exists inp|exists i];
        (split; [|done]); [by left|by right].
    + intros (i & Hi & Ht). apply elem_of_cons in Hi as [->|Hi];
        [by left|right; by exists i].
Qed.

Lemma addInputs_panics (inps : list RpcInput.t) (s : State) :
  panics (forM_ inps addInput s) = true ↔
  inps ≠ [] ∧
  (noCover s = true ∨
   ∃ inp err, inp ∈ inps ∧ Deserialize (RpcInput.Prog inp) = inr err).
Proof.
  revert s. induction inps as [|inp inps IH]; intros s.
  - simpl. split; [done|]. by intros [? _].
  - simpl forM_. rewrite panics_bind.
    destruct (addInput inp s) as [[] s1|msg s1] eqn:E.
    + assert (panics (addInput inp s) = false) as Hok by (by rewrite E).
      destruct (addInput_returns inp s Hok)
        as (prg & s1' & Hde & Hnc & E' & _ & _ & _ & _ & _ & _ & Hnc1 & _).
      assert (s1' = s1) as -> by congruence.
      rewrite IH. split.
      * intros [_ [Hc|(i & err & Hi & Hf)]]; (split; [done|]);
          [left; congruence|right; exists i, err; split; [by right|done]].
      * intros [_ [Hc|(i & err & Hi & Hf)]]; [congruence|].
        apply elem_of_cons in Hi as [->|Hi]; [congruence|].
        split; [by intros ->; apply not_elem_of_nil in Hi|].
        right. by exists i, err.
    + assert (panics (addInput inp s) = true) as Hp by (by rewrite E).
      apply addInput_panics in Hp. split; [|done]. intros _.
      split; [done|]. destruct Hp as [Hp|[err Hp]]; [by left|].
      right. exists inp, err. split; [by left|done].
Qed.

Lemma addInputs_returns (inps : list RpcInput.t) (s : State) :
  panics (forM_ inps addInput s) = false →
  ∃ s',
    forM_ inps addInput s = Ok tt s' ∧
    maxSignal s' = maxSignal s ∪ batchSignal inps ∧
    corpusSignal s' = corpusSignal s ∪ (batchSignal inps ∖ maxSignal s) ∧
    corpusHashes s' = corpusHashes s ∪ batchHashes inps ∧
    length (corpus s') =
      length (corpus s) + size (batchHashes inps ∖ corpusHashes s) ∧
    newSignal s' = newSignal s ∧ allTriaged s' = allTriaged s ∧
    noCover s' = noCover s ∧ workQueue s' = workQueue s ∧
    lastPoll s' = lastPoll s ∧ trace s' = trace s.
Proof.
  revert s. induction inps as [|inp inps IH]; intros s Hok.
  - exists s. simpl. split; [done|].
    assert (size (∅ ∖ corpusHashes s) = 0) as ->
      by (apply size_empty_iff; sets).
    repeat split; try done; try lia; no_target;
      apply set_eq; intros x; set_solver.
  - simpl forM_ in Hok |- *. rewrite panics_bind in Hok. unfold bind.
    destruct (addInput inp s) as [[] s1|msg s1] eqn:E; [|done].
    assert (panics (addInput inp s) = false) as Hok1 by (by rewrite E).
    destruct (addInput_returns inp s Hok1)
      as (prg & s1' & Hde & Hnc & E' & Hc & Hh & Hm & Hcs
          & Hn & Ha & Hnc1 & Hq & Hl & Ht).
    assert (s1' = s1) as -> by congruence.
    destruct (IH s1 Hok)
      as (s' & -> & Hm' & Hcs' & Hh' & Hc' & Hn' & Ha' & Hnc' & Hq' & Hl' & Ht').
    exists s'. split; [done|]. simpl.
    rewrite Hm', Hcs', Hh', Hc', Hm, Hcs, Hh, Hc.
    split; [sets|]. split.
    { no_target. apply set_eq. intros x.
      destruct (decide (x ∈ maxSignal s));
        destruct (decide (x ∈ (list_to_set (RpcInput.Signal inp) : gset token)));
        set_solver. }
    split; [sets|]. split; [|repeat split; congruence].
    set (h := Hash (RpcInput.Prog inp)).
    destruct (decide (h ∈ corpusHashes s)) as [Hin|Hin].
    + rewrite Nat.add_cancel_l. f_equal. sets.
    + rewrite length_app. simpl.
      assert (({[h]} ∪ batchHashes inps) ∖ corpusHashes s =
              {[h]} ∪ batchHashes inps ∖ ({[h]} ∪ corpusHashes s)) as ->.
      { no_target. apply set_eq. intros x.
        destruct (decide (x = h)) as [->|]; set_solver. }
      assert (({[h]} : gset Sig) ## batchHashes inps ∖ ({[h]} ∪ corpusHashes s))
        as Hd by sets.
      rewrite (size_union _ _ Hd), size_singleton. lia.
Qed.

(** X4. A batch of inputs that [addInput] accepts one after the other
    adds to [maxSignal] every token the inputs carry, to [corpusSignal]
    those of them that [maxSignal] lacked before the batch, to the hash set
    every hash, and to the corpus one program per hash that is new. *)
Theorem inputs_batch (inps : list RpcInput.t) (s : State) :
  panics (forM_ inps addInput s) = false →
  let s' := final (forM_ inps addInput s) in
  maxSignal s' = maxSignal s ∪ batchSignal inps ∧
  corpusSignal s' = corpusSignal s ∪ (batchSignal inps ∖ maxSignal s) ∧
  corpusHashes s' = corpusHashes s ∪ batchHashes inps ∧
  length (corpus s') =
    length (corpus s) + size (batchHashes inps ∖ corpusHashes s).
Proof.
  intros Hok s'.
  destruct (addInputs_returns inps s Hok) as (s1 & E & Hm & Hcs & Hh & Hc & _).
  unfold s'. rewrite E. simpl. done.
Qed.

(** X5. The order in which the inputs of a batch arrive does not matter:
    two orders of the same inputs panic or return together, and when they
    return they leave the same signal sets, the same hash set and a corpus
    of the same length. *)
Theorem inputs_order_irrelevant (inps inps' : list RpcInput.t) (s : State) :
  inps ≡ₚ inps' →
  let run := forM_ inps addInput s in
  let run' := forM_ inps' addInput s in
  panics run = panics run' ∧
  (panics run = false →
   maxSignal (final run) = maxSignal (final run') ∧
   corpusSignal (final run) = corpusSignal (final run') ∧
   corpusHashes (final run) = corpusHashes (final run') ∧
   length (corpus (final run)) = length (corpus (final run'))).
Proof.
  intros Hperm run run'.
  assert (batchSignal inps = batchSignal inps') as HU.
  { apply set_eq. intros t. rewrite !elem_of_batchSignal.
    by setoid_rewrite Hperm. }
  assert (batchHashes inps = batchHashes inps') as HH.
  { apply set_eq. intros h. rewrite !elem_of_batchHashes.
    by setoid_rewrite Hperm. }
  assert (panics run = panics run') as Hp.
  { apply eq_true_iff_eq. unfold run, run'. rewrite !addInputs_panics.
    assert (inps ≠ [] ↔ inps' ≠ []) as ->.
    { split; intros Hn ->.
      - by apply Permutation_nil_r in Hperm.
      - by apply Permutation_nil_l in Hperm. }
    by setoid_rewrite Hperm. }
  split; [done|]. intros Hok.
  assert (panics run' = false) as Hok' by congruence.
  destruct (addInputs_returns inps s Hok) as (s1 & E & Hm & Hcs & Hh & Hc & _).
  destruct (addInputs_returns inps' s Hok')
    as (s1' & E' & Hm' & Hcs' & Hh' & Hc' & _).
  unfold run, run'. rewrite E, E'. simpl.
  rewrite Hm, Hm', Hcs, Hcs', Hh, Hh', Hc, Hc', HU, HH. done.
Qed.

Lemma SignalDiff_covered (base : gset token) (signal : list token) :
  list_to_set signal ⊆ base → SignalDiff base signal = [].
Proof.
  intros Hsub. unfold SignalDiff.
  induction signal as [|t signal IH]; [done|].
  rewrite filter_cons. rewrite decide_False.
  - apply IH. intros x Hx. apply Hsub. sets.
  - intros Hn. apply Hn, Hsub. sets.
Qed.

Lemma addInput_noop (inp : RpcInput.t) (prg : Program) (s : State) :
  noCover s = false →
  Deserialize (RpcInput.Prog inp) = inl prg →
  Hash (RpcInput.Prog inp) ∈ corpusHashes s →
  list_to_set (RpcInput.Signal inp) ⊆ maxSignal s →
  addInput inp s = Ok tt s.
Proof.
  intros Hnc Hde Hin Hsub.
  unfold addInput, bind, gets, modify, ret. rewrite Hnc, Hde.
  rewrite decide_True by done. by rewrite SignalDiff_covered.
Qed.

(** X6. Absorbing a batch of inputs a second time changes nothing: run
    again in the state the first run left, the same batch returns and
    leaves every part of the state as it was. *)
Theorem inputs_idempotent (inps : list RpcInput.t) (s : State) :
  panics (forM_ inps addInput s) = false →
  let s' := final (forM_ inps addInput s) in
  forM_ inps addInput s' = Ok tt s'.
Proof.
  intros Hok s'.
  destruct (addInputs_returns inps s Hok)
    as (s1 & E & Hm & _ & Hh & _ & _ & _ & Hnc & _).
  unfold s'. rewrite E. simpl. clear s' E.
  destruct (decide (inps = [])) as [->|Hne]; [done|].
  assert (noCover s1 = false) as Hnc1.
  { destruct (noCover s) eqn:Hs; [|congruence].
    assert (panics (forM_ inps addInput s) = true) as Hp
      by (apply addInputs_panics; split; [done|by left]).
    congruence. }
  assert (∀ inp, inp ∈ inps →
            (∃ prg, Deserialize (RpcInput.Prog inp) = inl prg) ∧
            Hash (RpcInput.Prog inp) ∈ corpusHashes s1 ∧
            list_to_set (RpcInput.Signal inp) ⊆ maxSignal s1) as Hall.
  { intros inp Hin. split; [|split].
    - destruct (Deserialize (RpcInput.Prog inp)) as [prg|err] eqn:Hde;
        [by exists prg|].
      assert (panics (forM_ inps addInput s) = true) as Hp.
      { apply addInputs_panics. split;
          [by intros ->; apply not_elem_of_nil in Hin|].
        right. by exists inp, err. }
      congruence.
    - rewrite Hh. apply elem_of_union. right.
      apply elem_of_batchHashes. by exists inp.
    - rewrite Hm. intros t Ht. apply elem_of_union. right.
      apply elem_of_batchSignal. exists inp. split; [done|].
      by apply elem_of_list_to_set in Ht. }
  clear Hok Hm Hh Hnc Hne. induction inps as [|inp inps IH]; [done|].
  simpl. unfold bind.
  destruct (Hall inp) as ([prg Hde] & Hin & Hsub); [by left|].
  rewrite (addInput_noop inp prg s1 Hnc1 Hde Hin Hsub).
  apply IH. intros i Hi. apply Hall. by right.
Qed.

(** ** The bootstrap as a whole *)

Lemma buildCallList_state (enabledCalls : string) (s : State) :
  final (buildCallList enabledCalls s) = s.
Proof.
  symmetry.
  exact (buildCallList_same enabledCalls (same (λ s, s)) s).
Qed.

Lemma candidates_panics (cands : list RpcCandidate.t) (s : State) :
  panics (forM_ cands absorbCandidate s) = true ↔
  ∃ cand err, cand ∈ cands ∧ Deserialize (RpcCandidate.Prog cand) = inr err.
Proof.
  revert s. induction cands as [|c cands IH]; intros s.
  - simpl. split; [done|]. intros (c & _ & Hin & _).
    by apply not_elem_of_nil in Hin.
  - simpl forM_. rewrite panics_bind, absorbCandidate_eq.
    destruct (Deserialize (RpcCandidate.Prog c)) as [prg|err] eqn:Hde.
    + rewrite IH. split.
      * intros (c' & err & Hin & Hf). exists c', err. split; [by right|done].
      * intros (c' & err & Hin & Hf).
        apply elem_of_cons in Hin as [->|Hin]; [congruence|].
        by exists c', err.
    + split; [|done]. intros _. exists c, err. split; [by left|done].
Qed.

Lemma bootstrap_unfold (r : ConnectRes.t) (flags : Z) (s : State) :
  bootstrap r flags s =
  match buildCallList (ConnectRes.EnabledCalls r) s with
  | Panic msg s0 => Panic msg s0
  | Ok calls s0 =>
      match forM_ (ConnectRes.Inputs r) addInput s0 with
      | Panic msg s1 => Panic msg s1
      | Ok _ s1 =>
          let s2 := set_noCover (Z.land flags FlagSignal =? 0)%Z
                      (set_maxSignal
                         (maxSignal s1 ∪ list_to_set (ConnectRes.MaxSignal r)) s1) in
          match forM_ (ConnectRes.Candidates r) absorbCandidate s2 with
          | Panic msg s3 => Panic msg s3
          | Ok _ s3 => Ok calls s3
          end
      end
  end.
Proof.
  unfold bootstrap, connectAbsorb, detectNoCover, seedCandidates, bind.
  destruct (buildCallList _ s) as [calls s0|]; [|done].
  destruct (forM_ (ConnectRes.Inputs r) addInput s0) as [[] s1|]; [|done].
  rewrite absorbMaxSignal_eq. unfold modify, ret. cbv zeta.
  by destruct (forM_ (ConnectRes.Candidates r) absorbCandidate _) as [[] s3|].
Qed.

(** X7. The panics of the blocks of [main] that handle the
    [Manager.Connect] answer.  Started with [noCover] still unset, the
    input block panics exactly when an input does not deserialize: the
    coverage guard of [addInput] cannot fire there, since [noCover] is
    computed after that block.  The candidate loop panics exactly when
    a candidate does not deserialize, in every state.  A rejected
    [-calls] string, an input or a candidate that does not deserialize
    each make the handling as a whole panic, and a rejected [-calls]
    string leaves the state untouched. *)
Theorem bootstrap_fatal (r : ConnectRes.t) (flags : Z) (s : State) :
  noCover s = false →
  (panics (connectAbsorb r s) = true ↔
     ∃ inp err, inp ∈ ConnectRes.Inputs r ∧
                Deserialize (RpcInput.Prog inp) = inr err) ∧
  (∀ s0, panics (seedCandidates r s0) = true ↔
     ∃ cand err, cand ∈ ConnectRes.Candidates r ∧
                 Deserialize (RpcCandidate.Prog cand) = inr err) ∧
  (panics (buildCallList (ConnectRes.EnabledCalls r) s) = true ∨
   (∃ inp err, inp ∈ ConnectRes.Inputs r ∧
               Deserialize (RpcInput.Prog inp) = inr err) ∨
   (∃ cand err, cand ∈ ConnectRes.Candidates r ∧
                Deserialize (RpcCandidate.Prog cand) = inr err) →
   panics (bootstrap r flags s) = true) ∧
  (panics (buildCallList (ConnectRes.EnabledCalls r) s) = true →
   final (bootstrap r flags s) = s).
Proof.
  intros Hnc.
  assert (panics (forM_ (ConnectRes.Inputs r) addInput s) = true ↔
          ∃ inp err, inp ∈ ConnectRes.Inputs r ∧
                     Deserialize (RpcInput.Prog inp) = inr err) as Hin.
  { rewrite addInputs_panics. split.
    - intros [_ [?|?]]; [congruence|done].
    - intros (inp & err & Hi & Hf). split; [|right; by exists inp, err].
      intros E. rewrite E in Hi. by apply not_elem_of_nil in Hi. }
  split.
  { rewrite <- Hin. unfold connectAbsorb. rewrite panics_bind.
    destruct (forM_ (ConnectRes.Inputs r) addInput s) as [[] s1|msg s1];
      [|done].
    by rewrite absorbMaxSignal_eq. }
  split; [intros s0; apply candidates_panics|].
  rewrite bootstrap_unfold.
  pose proof (buildCallList_state (ConnectRes.EnabledCalls r) s) as Hst.
  destruct (buildCallList _ s) as [calls s0|msg s0]; simpl in Hst; subst s0;
    [|done].
  split; [|done].
  destruct (forM_ (ConnectRes.Inputs r) addInput s) as [[] s1|msg s1];
    simpl in Hin; [|done].
  cbv zeta.
  match goal with
  | |- context [forM_ _ absorbCandidate ?s2] =>
      pose proof (candidates_panics (ConnectRes.Candidates r) s2) as Hc;
      destruct (forM_ (ConnectRes.Candidates r) absorbCandidate s2)
        as [[] s3|msg s3]; simpl in Hc |- *
  end; [|done].
  intros [?|[Hi|Hcand]]; [done| |].
  - by apply Hin in Hi.
  - by apply Hc in Hcand.
Qed.


(** ** Rate limiting of the poll loop *)

Lemma Since_threshold (now t : Z) :
  (10 * Second <? Since now t)%Z = (10 * Second <? now - t)%Z.
Proof.
  apply eq_true_iff_eq. rewrite !Z.ltb_lt.
  unfold Since, maxDuration, minDuration, Second.
  change (2 ^ 63)%Z with 9223372036854775808%Z.
  destruct (_ <? now - t)%Z eqn:E1; [apply Z.ltb_lt in E1; lia|].
  apply Z.ltb_ge in E1.
  destruct (now - t <? _)%Z eqn:E2; [apply Z.ltb_lt in E2; lia|done].
Qed.

(** X9. After a poll whose answer held neither inputs nor candidates,
    [lastPoll] is the clock read at its end; a ticker wake-up that comes
    no more than ten seconds after that clock does not call the
    manager: it leaves the state as it was, or as the keep-alive block
    left it, and [lastPoll] where it is; one that comes later polls
    again. *)
Theorem poll_rate_limit (w1 w2 : Wake) (r : PollRes.t) (s : State) :
  polls (trace (final (pollLoopBody w1 s))) = S (polls (trace s)) →
  call w1 (pollArgs w1 s) = inl r →
  PollRes.NewInputs r = [] →
  PollRes.Candidates r = [] →
  fired w2 = false →
  let s1 := final (pollLoopBody w1 s) in
  let s2 := final (pollLoopBody w2 s1) in
  lastPoll s1 = finished w1 ∧
  ((now w2 - finished w1 ≤ 10 * Second)%Z →
   (s2 = s1 ∨ s2 = set_lastPrint (printed w2) (emit EvAlive s1)) ∧
   polls (trace s2) = polls (trace s1) ∧
   lastPoll s2 = finished w1) ∧
  ((10 * Second < now w2 - finished w1)%Z →
   polls (trace s2) = S (polls (trace s1))).
Proof.
  intros Hpolled Hcall Hi Hc Hf s1 s2.
  assert (lastPoll s1 = finished w1) as Hlp.
  { destruct (keepAlive_frame w1 s) as (Hlp0 & Hns & Hpolls).
    unfold s1 in *. rewrite pollLoopBody_final in Hpolled |- *.
    destruct (_ || _); [|lia].
    rewrite pollManager_final. cbv zeta. rewrite Hns.
    fold (pollArgs w1 s).
    rewrite Hcall, absorbPollRes_lastPoll, Hi, Hc. done. }
  split; [done|].
  destruct (keepAlive_frame w2 s1) as (Hlp2 & _ & Hpolls2).
  unfold s2.
  rewrite (pollLoopBody_final w2 s1), Hf, Hlp, Since_threshold. simpl.
  split; intros Hd.
  - apply Z.ltb_ge in Hd. rewrite Hd.
    split; [apply keepAlive_cases|]. split; [done|congruence].
  - apply Z.ltb_lt in Hd. rewrite Hd, pollManager_polls. lia.
Qed.

(** ** The [-calls] string *)

Lemma Split_cons (s : string) : ∃ fld flds, Split s = fld :: flds.
Proof.
  induction s as [|c s (fld & flds & IH)]; simpl; [by eexists _, _|].
  destruct (Ascii.eqb c ","); [by eexists _, _|]. rewrite IH. by eexists _, _.
Qed.

Lemma Split_app_comma (a b : string) :
  Split (a +:+ String ","%char b) = Split a ++ Split b.
Proof.
  induction a as [|c a IH]; simpl; [done|].
  destruct (Ascii.eqb c ","); [by rewrite IH|].
  rewrite IH. destruct (Split_cons a) as (fld & flds & ->). done.
Qed.

Lemma digit_pretty (d : N) : (d < 10)%N → digit (pretty_N_char d) = Some d.
Proof.
  intros Hd.
  assert (d = 0 ∨ d = 1 ∨ d = 2 ∨ d = 3 ∨ d = 4 ∨ d = 5 ∨ d = 6 ∨ d = 7
          ∨ d = 8 ∨ d = 9)%N as Hcases by lia.
  repeat (destruct Hcases as [->|Hcases]; [reflexivity|]). by subst.
Qed.

Lemma parseDigits_pretty (x : N) (s : string) :
  parseDigits (pretty_N_go x s) 0 = parseDigits s x.
Proof.
  revert s. induction (N.lt_wf_0 x) as [x _ IH]. intros s.
  destruct (decide (x = 0%N)) as [->|Hx]; [by rewrite pretty_N_go_0|].
  rewrite pretty_N_go_step by lia.
  rewrite IH by (apply N.div_lt; lia). simpl.
  rewrite digit_pretty by (apply N.mod_lt; lia).
  f_equal. pose proof (N.div_mod x 10). lia.
Qed.

Lemma ParseUint_pretty (n : N) :
  (n < 2 ^ 64)%N → ParseUint (pretty n) = Some n.
Proof.
  intros Hn. unfold pretty, pretty_N.
  destruct (decide (n = 0%N)) as [->|Hx]; [reflexivity|].
  pose proof (parseDigits_pretty n "") as Hp. simpl in Hp.
  unfold ParseUint. destruct (pretty_N_go n "") as [|c s] eqn:E.
  - simpl in Hp. congruence.
  - rewrite Hp. apply N.ltb_lt in Hn. by rewrite Hn.
Qed.

Lemma parseDigits_no_comma (s : string) (acc v : N) :
  parseDigits s acc = Some v → Split s = [s].
Proof.
  revert acc. induction s as [|c s IH]; intros acc; simpl; [done|].
  destruct (digit c) as [d|] eqn:Ed; [|done].
  intros Hp. rewrite (IH _ Hp).
  destruct (Ascii.eqb c ",") eqn:Ec; [|done].
  apply Ascii.eqb_eq in Ec. subst c. done.
Qed.

Lemma ParseUint_no_comma (id : string) (n : N) :
  ParseUint id = Some n → Split id = [id].
Proof.
  unfold ParseUint. destruct id as [|c id]; [done|].
  destruct (parseDigits (String c id) 0) as [v|] eqn:Ep; [|done].
  intros _. by apply (parseDigits_no_comma _ 0%N v).
Qed.

Lemma Split_Join (ids : list string) :
  ids ≠ [] → Forall (λ id, Split id = [id]) ids → Split (Join ids) = ids.
Proof.
  intros Hne Hall. induction Hall as [|id ids Hid Hall IH]; [done|].
  destruct ids as [|id' ids]; [done|].
  change (Join (id :: id' :: ids))
    with (id +:+ String ","%char (Join (id' :: ids))).
  rewrite Split_app_comma, Hid, IH; done.
Qed.

Lemma buildCallList_panics (enabledCalls : string) (s : State) :
  panics (buildCallList enabledCalls s) = true ↔
  enabledCalls ≠ EmptyString ∧ Exists badId (Split enabledCalls).
Proof.
  unfold buildCallList, bind, ret.
  destruct (decide (enabledCalls ≠ EmptyString)) as [Hne|He].
  - pose proof (enableCalls_cases (Split enabledCalls) ∅ s) as Hcases.
    destruct (foldM enableCall (Split enabledCalls) ∅ s) as [calls s0|msg s0];
      simpl.
    + destruct Hcases as (_ & Hall & _). split; [done|]. intros [_ Hex].
      apply Exists_exists in Hex as (id & Hin & Hbad).
      rewrite Forall_forall in Hall. exfalso.
      by apply (good_not_bad id); auto.
    + by destruct Hcases as (_ & Hex).
  - simpl. split; [done|]. by intros [? _].
Qed.

Lemma enableCalls_first_bad (ids : list string) (calls : gmap Syscall bool)
    (msg : error) (s s' : State) :
  foldM enableCall ids calls s = Panic msg s' →
  ∃ pre id post,
    ids = pre ++ id :: post ∧ Forall goodId pre ∧ badId id ∧
    msg = "invalid syscall in -calls flag: " +:+ id.
Proof.
  revert calls. induction ids as [|id ids IH]; intros calls; simpl; [done|].
  unfold bind. pose proof (enableCall_cases calls id s) as Hone.
  destruct (enableCall calls id s) as [calls1 s1|msg1 s1] eqn:E.
  - destruct Hone as (-> & n & c & En & Hlt & _ & _).
    intros Hp. destruct (IH _ Hp) as (pre & bad & post & -> & Hpre & Hbad & ->).
    exists (id :: pre), bad, post. split; [done|].
    split; [constructor; [by exists n|done]|done].
  - destruct Hone as (-> & Hbad). intros [= <- <-].
    exists [], id, ids. split; [done|]. split; [constructor|]. split; [done|].
    unfold enableCall, panic in E.
    destruct (ParseUint id) as [n|]; [|congruence].
    destruct (N.of_nat (length (Syscalls target)) <=? n)%N eqn:Hle;
      [congruence|].
    apply N.leb_gt in Hle.
    destruct (Syscalls target !! N.to_nat n) eqn:El; [done|].
    apply lookup_ge_None in El. lia.
Qed.

(** X10. When [buildCallList] panics it has changed nothing, and the
    message names the first field of the [-calls] string that does not
    parse or is out of range: every field before it is a valid id. *)
Theorem calls_first_bad_id (enabledCalls : string) (msg : error) (s s' : State) :
  buildCallList enabledCalls s = Panic msg s' →
  s' = s ∧
  ∃ pre id post,
    Split enabledCalls = pre ++ id :: post ∧
    Forall goodId pre ∧ badId id ∧
    msg = "invalid syscall in -calls flag: " +:+ id.
Proof.
  intros E.
  pose proof (buildCallList_state enabledCalls s) as Hst.
  rewrite E in Hst. simpl in Hst. split; [done|].
  unfold buildCallList, bind, ret in E.
  destruct (decide (enabledCalls ≠ EmptyString)); [|done].
  destruct (foldM enableCall (Split enabledCalls) ∅ s) as [calls s0|msg0 s0]
    eqn:Ef; [done|].
  injection E as -> ->. by apply (enableCalls_first_bad _ ∅ _ s s').
Qed.

(** X11. A [-calls] string made of the decimal forms of ids below the
    number of syscalls, with commas between them, is never rejected, and
    the calls it lists are exactly the syscalls with these ids. *)
Theorem calls_string_accepted (ns : list N) (s : State) :
  ns ≠ [] →
  Forall (λ n, (n < N.of_nat (length (Syscalls target)))%N ∧ (n < 2 ^ 64)%N) ns →
  Split (Join (pretty <$> ns)) = pretty <$> ns ∧
  panics (buildCallList (Join (pretty <$> ns)) s) = false ∧
  ∀ c, listedIn (Split (Join (pretty <$> ns))) c ↔
       ∃ n, n ∈ ns ∧ Syscalls target !! N.to_nat n = Some c.
Proof.
  intros Hne Hall.
  assert (Split (Join (pretty <$> ns)) = pretty <$> ns) as Hsplit.
  { apply Split_Join; [by destruct ns|].
    apply Forall_fmap. eapply Forall_impl; [exact Hall|].
    intros n [_ Hn]. simpl. apply (ParseUint_no_comma _ n).
    by apply ParseUint_pretty. }
  split; [done|]. rewrite Forall_forall in Hall. split.
  - destruct (panics _) eqn:Hp; [|done].
    apply buildCallList_panics in Hp as [_ Hex]. rewrite Hsplit in Hex.
    apply Exists_exists in Hex as (id & Hin & Hbad).
    apply list_elem_of_fmap in Hin as (n & -> & Hn).
    destruct (Hall n Hn) as [Hlt H64].
    exfalso. apply (good_not_bad (pretty n)); [|done].
    exists n. split; [by apply ParseUint_pretty|done].
  - intros c. rewrite Hsplit. unfold listedIn. split.
    + intros (id & n & Hin & Hp & Hl).
      apply list_elem_of_fmap in Hin as (n' & -> & Hn').
      destruct (Hall n' Hn') as [_ H64].
      rewrite ParseUint_pretty in Hp by done.
      injection Hp as ->. by exists n.
    + intros (n & Hn & Hl). destruct (Hall n Hn) as [_ H64].
      exists (pretty n), n. split; [|split; [by apply ParseUint_pretty|done]].
      apply list_elem_of_fmap. by exists n.
Qed.

(** X12. An empty field is fatal: [buildCallList] panics on every
    [-calls] string that ends with a comma, begins with one, or has two
    in a row. *)
Theorem calls_string_empty_field (a b : string) (s : State) :
  panics (buildCallList (a +:+ ",") s) = true ∧
  panics (buildCallList ("," +:+ b) s) = true ∧
  panics (buildCallList (a +:+ ",," +:+ b) s) = true.
Proof.
  assert (badId EmptyString) as Hbad by (by left).
  assert (∀ a' b', a' +:+ String ","%char b' ≠ EmptyString) as Hne
    by (intros [|c a'] b'; done).
  split; [|split]; apply buildCallList_panics.
  - split; [apply Hne|]. rewrite Split_app_comma. simpl.
    apply Exists_app. right. by left.
  - split; [apply (Hne EmptyString)|]. simpl. by left.
  - split; [apply Hne|].
    change (",," +:+ b) with (String ","%char (EmptyString +:+ String ","%char b)).
    rewrite !Split_app_comma. simpl.
    apply Exists_app. right. by left.
Qed.

(** ** The executor flags *)

(** X13. Switching on TUN or fault injection only adds bits to the flags
    that [ipc.DefaultConfig] returned, and, the signal flag being a bit of
    its own, never changes what [noCover] becomes: coverage is on or off
    as the default configuration says. *)
Theorem flags_keep_coverage (FlagEnableTun FlagEnableFault : Z)
    (syscallMap : gmap string Syscall) (calls : gmap Syscall bool)
    (fault : bool) (flags : Z) (s : State) :
  Z.land FlagEnableTun FlagSignal = 0%Z →
  Z.land FlagEnableFault FlagSignal = 0%Z →
  let flags' :=
    configFlags FlagEnableTun FlagEnableFault syscallMap calls fault flags in
  Z.land flags' flags = flags ∧
  noCover (final (detectNoCover flags' s)) = (Z.land flags FlagSignal =? 0)%Z.
Proof.
  intros Ht Hf flags'.
  assert (∀ a b, Z.land (Z.lor a b) a = a) as Habs.
  { intros a b. apply Z.bits_inj'. intros n _.
    rewrite Z.land_spec, Z.lor_spec.
    by destruct (Z.testbit a n), (Z.testbit b n). }
  assert (∀ a b, Z.land b FlagSignal = 0%Z →
            Z.land (Z.lor a b) FlagSignal = Z.land a FlagSignal) as Hsig.
  { intros a b Hb. by rewrite Z.land_lor_distr_l, Hb, Z.lor_0_r. }
  unfold flags', configFlags, detectNoCover, modify. simpl.
  destruct (_ || _), fault; rewrite ?Hsig by done; split; try done;
    first [apply Z.land_diag | apply Habs | rewrite <- Z.lor_assoc; apply Habs].
Qed.

(** ** What whole runs never do *)

#[local] Instance appendOnly_preorder : PreOrder appendOnly.
Proof.
  split.
  - intros s. by repeat split.
  - intros s1 s2 s3 (C12 & H12 & Q12) (C23 & H23 & Q23).
    split; [by etrans|]. split; [by etrans|by etrans].
Qed.

Lemma runOp_appendOnly (o : Op) : keeps appendOnly (runOp o).
Proof.
  destruct o; unfold_ops; keeps_structure;
    apply keeps_modify; intros s; unfold appendOnly; simpl;
    repeat split; try done; try (by apply prefix_app_r); sets.
Qed.

(** X1. No sequence of operations removes or reorders anything: the
    corpus and the candidate queue a run ends with begin with what they
    held before, and the hash set only gains members. *)
Theorem corpus_append_only (ops : list Op) (s : State) :
  let s' := final (runOps ops s) in
  corpus s `prefix_of` corpus s' ∧
  corpusHashes s ⊆ corpusHashes s' ∧
  workQueue s `prefix_of` workQueue s'.
Proof.
  intros s'.
  assert (keeps appendOnly (runOps ops)) as Hk
    by (unfold runOps; apply keeps_forM; [apply _|apply runOp_appendOnly]).
  apply Hk.
Qed.

#[local] Instance hashesBacked_preorder : PreOrder hashesBacked.
Proof.
  split.
  - intros s. unfold hashesBacked. lia.
  - intros s1 s2 s3 B12 B23. unfold hashesBacked in *. lia.
Qed.

Lemma size_add_le (h : Sig) (hs : gset Sig) :
  (size ({[h]} ∪ hs) ≤ S (size hs))%nat.
Proof.
  rewrite size_union_alt, size_singleton.
  assert (size (hs ∖ {[h]}) ≤ size hs)%nat by (apply subseteq_size; sets).
  lia.
Qed.

Lemma runOp_hashesBacked (o : Op) : keeps hashesBacked (runOp o).
Proof.
  destruct o; unfold_ops; keeps_structure;
    apply keeps_modify; intros s; unfold hashesBacked; simpl;
    rewrite ?length_app; simpl; try lia.
  all: match goal with
       | |- context [size ({[?h]} ∪ ?hs)] => pose proof (size_add_le h hs); lia
       end.
Qed.

(** X2. In every state that a sequence of operations reaches from the
    initial one, the hash set is no larger than the corpus: no hash is
    recorded without a program having been appended for it. *)
Theorem hashes_backed (ops : list Op) :
  let s := final (runOps ops initState) in
  (size (corpusHashes s) ≤ length (corpus s))%nat.
Proof.
  intros s.
  assert (keeps hashesBacked (runOps ops)) as Hk
    by (unfold runOps; apply keeps_forM; [apply _|apply runOp_hashesBacked]).
  specialize (Hk initState). unfold hashesBacked in Hk. fold s in Hk.
  change (corpusHashes initState) with (∅ : gset Sig) in Hk.
  change (corpus initState) with (@nil Program) in Hk.
  rewrite size_empty in Hk. simpl in Hk. lia.
Qed.

(** ** Leak scans and the [allTriaged] flag *)

Lemma leakPhase_snoc (t : list Event) (e : Event) :
  leakPhase (t ++ [e]) = leakStep (leakPhase t) e.
Proof. unfold leakPhase. by rewrite foldl_app. Qed.

Lemma leakStep_broken (t : list Event) : foldl leakStep Broken t = Broken.
Proof. induction t as [|e t IH]; [done|]. simpl. by destruct e. Qed.

Lemma leakPhase_reporting (t : list Event) :
  leakPhase t = Reporting → ∃ v, EvStoreAllTriaged v ∈ t.
Proof.
  induction t as [|e t IH] using rev_ind; [done|].
  rewrite leakPhase_snoc.
  destruct (leakPhase t) eqn:Ep; intros Hs.
  - destruct e as [a|[]|v|]; try done.
    exists v. apply elem_of_app. right. by left.
  - destruct (IH eq_refl) as [v Hv]. exists v. apply elem_of_app. by left.
  - by destruct e.
Qed.

#[local] Instance phaseKept_preorder : PreOrder phaseKept.
Proof.
  split; [intros s Hs; exact Hs|].
  intros s1 s2 s3 K12 K23 H1. by apply K23, K12.
Qed.

Lemma markTriaged_phaseKept (r : PollRes.t) : keeps phaseKept (markTriaged r).
Proof.
  intros s Hok. pose proof Hok as [Hp Hb].
  unfold markTriaged, bind, gets, kmemleakScan, modify, ret.
  destruct (allTriaged s =? 0)%N eqn:E;
    destruct (length (PollRes.Candidates r) =? 0)%nat; simpl;
    try exact Hok.
  destruct flagLeak; simpl; unfold phaseOK; simpl;
    rewrite ?leakPhase_snoc, Hp; done.
Qed.

Lemma leakCallback_phaseKept : keeps phaseKept leakCallback.
Proof.
  intros s Hok. pose proof Hok as [Hp Hb].
  unfold leakCallback, bind, gets, kmemleakScan, modify, ret.
  destruct (allTriaged s =? 0)%N eqn:E; simpl; [exact Hok|].
  unfold phaseOK. simpl. rewrite leakPhase_snoc, Hp, E. done.
Qed.

Lemma runOp_phaseKept (o : Op) : keeps phaseKept (runOp o).
Proof.
  destruct o as [inp|sigs|r flags|w|];
    unfold runOp, bootstrap, connectAbsorb, detectNoCover, seedCandidates,
      pollLoopBody, keepAlive, pollManager, absorbPollRes, absorbReply,
      noteLastPoll, drainNewSignal, buildCallList,
      enableCall, addInput, absorbCandidate, enqueue, absorbMaxSignal;
    keeps_structure;
    try apply markTriaged_phaseKept; try apply leakCallback_phaseKept;
    apply keeps_modify; intros s [Hp Hb]; unfold phaseOK; simpl;
    rewrite ?leakPhase_snoc, ?Hp; simpl; split; try done;
    by destruct (allTriaged s =? 0)%N.
Qed.

(** X3. In every trace that a sequence of operations produces from the
    initial state, [allTriaged] is stored at most once, the baseline scan
    never follows that store, and every reporting leak scan comes after
    it; the flag is 0 or 1 and is 1 exactly when the store has happened. *)
Theorem leak_scans_ordered (ops : list Op) :
  let s := final (runOps ops initState) in
  leakPhase (trace s) =
    (if (allTriaged s =? 0)%N then Triaging else Reporting) ∧
  (allTriaged s = 0%N ∨ allTriaged s = 1%N) ∧
  ∀ pre post,
    trace s = pre ++ EvKmemleakScan true :: post →
    ∃ v, EvStoreAllTriaged v ∈ pre.
Proof.
  intros s.
  assert (keeps phaseKept (runOps ops)) as Hk
    by (unfold runOps; apply keeps_forM; [apply _|apply runOp_phaseKept]).
  destruct (Hk initState) as [Hp Hb]; [by split|]. fold s in Hp, Hb.
  split; [exact Hp|]. split; [lia|].
  intros pre post E. rewrite E in Hp. unfold leakPhase in Hp.
  rewrite foldl_app in Hp. simpl in Hp. fold (leakPhase pre) in Hp.
  destruct (leakPhase pre) eqn:Epre.
  - simpl in Hp. rewrite leakStep_broken in Hp.
    by destruct (allTriaged s =? 0)%N.
  - by apply leakPhase_reporting.
  - simpl in Hp. rewrite leakStep_broken in Hp.
    by destruct (allTriaged s =? 0)%N.
Qed.

End Fuzzer.

Arguments Ok {Program Sig _ _ A} a s.
Arguments Panic {Program Sig _ _ A} msg s.

(** * The statistics of a poll *)

Lemma procStats_lookup (envs : list Env) (m : gmap string Z) :
  foldl (λ m e, addStat "executor restarts" (StatRestarts e)
                  (addStat "exec total" (StatExecs e) m)) m envs
  !! "exec total" =
  match envs with
  | [] => m !! "exec total"
  | _ => Some ((default 0 (m !! "exec total")
                + foldr Z.add 0 (StatExecs <$> envs)) mod 2 ^ 64)%Z
  end ∧
  foldl (λ m e, addStat "executor restarts" (StatRestarts e)
                  (addStat "exec total" (StatExecs e) m)) m envs
  !! "executor restarts" =
  match envs with
  | [] => m !! "executor restarts"
  | _ => Some ((default 0 (m !! "executor restarts")
                + foldr Z.add 0 (StatRestarts <$> envs)) mod 2 ^ 64)%Z
  end.
Proof.
  revert m. induction envs as [|e envs IH]; intros m; [done|].
  cbn [foldl]. destruct (IH (addStat "executor restarts" (StatRestarts e)
                               (addStat "exec total" (StatExecs e) m)))
    as [IH1 IH2]. rewrite IH1, IH2. clear IH IH1 IH2.
  unfold addStat at 1 2 3 4 5 6 7 8. simplify_map_eq. unfold add64.
  destruct envs as [|e' envs]; simpl.
  - split; f_equal; f_equal; lia.
  - rewrite !Zplus_mod_idemp_l. split; f_equal; f_equal; lia.
Qed.

Lemma procStats_other (envs : list Env) (m : gmap string Z) (name : string) :
  name ≠ "exec total" → name ≠ "executor restarts" →
  foldl (λ m e, addStat "executor restarts" (StatRestarts e)
                  (addStat "exec total" (StatExecs e) m)) m envs
  !! name = m !! name.
Proof.
  intros H1 H2. revert m. induction envs as [|e envs IH]; intros m; [done|].
  cbn [foldl]. rewrite IH. unfold addStat. by simplify_map_eq.
Qed.

Lemma stat_procs (k : Stat) (name : string) (mc : gmap string Z * Counters) :
  procs (stat k name mc).2 = procs mc.2.
Proof. reflexivity. Qed.

Lemma stat_stats (k j : Stat) (name : string) (mc : gmap string Z * Counters) :
  stats (stat k name mc).2 j = if decide (j = k) then 0%Z else stats mc.2 j.
Proof. reflexivity. Qed.

Lemma stat_execTotal (k : Stat) (name : string) (mc : gmap string Z * Counters) :
  execTotal (stat k name mc).2 = add64 (execTotal mc.2) (stats mc.2 k).
Proof. reflexivity. Qed.

Lemma stat_lookup (k : Stat) (name key : string)
    (mc : gmap string Z * Counters) :
  (stat k name mc).1 !! key =
  if decide (name = key) then Some (stats mc.2 k) else mc.1 !! key.
Proof.
  change ((stat k name mc).1) with (<[name := stats mc.2 k]> mc.1).
  apply lookup_insert.
Qed.

#[local] Opaque stat.

(** Reads of [fuzzer.stats] and of the report through the eight [stat]
    calls of a poll. *)
Ltac stat_reads :=
  repeat first
    [ rewrite stat_stats | rewrite stat_execTotal | rewrite stat_procs
    | rewrite stat_lookup
    | rewrite decide_False by discriminate
    | rewrite decide_True by reflexivity ].

(** X14. A poll swaps every counter to zero: afterwards the eight
    activity counters and both counters of every proc are zero, and the
    number of procs is unchanged. *)
Theorem stats_drained (c : Counters) :
  let c' := (collectStats c).2 in
  (∀ k, stats c' k = 0%Z) ∧
  length (procs c') = length (procs c) ∧
  Forall (λ e, StatExecs e = 0%Z ∧ StatRestarts e = 0%Z) (procs c').
Proof.
  intros c'. unfold c', collectStats.
  split; [|split].
  - intros k. destruct k; stat_reads; reflexivity.
  - stat_reads. cbn [snd procs]. apply length_fmap.
  - stat_reads. cbn [snd procs]. apply Forall_fmap, Forall_true.
    intros e. split; reflexivity.
Qed.

(** X15. [execTotal] grows by the sum of the eight activity counters,
    in 64-bit arithmetic; the per-proc execution counts are reported but
    not added to it. *)
Theorem stats_total (c : Counters) :
  execTotal (collectStats c).2 = ((execTotal c + activity c) mod 2 ^ 64)%Z.
Proof.
  unfold collectStats. stat_reads. cbn [snd stats execTotal].
  unfold activity, add64.
  repeat (rewrite Zplus_mod_idemp_l; rewrite <- ?Z.add_assoc).
  all: f_equal; lia.
Qed.

(** X16. What a poll reports: each activity counter under its own name,
    with the value it had; and, summed over the procs in 64-bit
    arithmetic, the executions and the executor restarts, two entries
    that are missing altogether when there is no proc. *)
Theorem stats_report (c : Counters) :
  let m := (collectStats c).1 in
  m !! "exec gen" = Some (stats c StatGenerate) ∧
  m !! "exec fuzz" = Some (stats c StatFuzz) ∧
  m !! "exec candidate" = Some (stats c StatCandidate) ∧
  m !! "exec triage" = Some (stats c StatTriage) ∧
  m !! "exec minimize" = Some (stats c StatMinimize) ∧
  m !! "exec smash" = Some (stats c StatSmash) ∧
  m !! "exec hints" = Some (stats c StatHint) ∧
  m !! "exec seeds" = Some (stats c StatSeed) ∧
  m !! "exec total" =
    match procs c with
    | [] => None
    | _ => Some (foldr Z.add 0 (StatExecs <$> procs c) mod 2 ^ 64)%Z
    end ∧
  m !! "executor restarts" =
    match procs c with
    | [] => None
    | _ => Some (foldr Z.add 0 (StatRestarts <$> procs c) mod 2 ^ 64)%Z
    end.
Proof.
  intros m. unfold m, collectStats.
  destruct (procStats_lookup (procs c) ∅) as [Ht Hr].
  fold (procStats (procs c)) in Ht, Hr.
  repeat split; stat_reads; cbn [fst snd stats]; try reflexivity.
  - rewrite Ht. destruct (procs c); reflexivity.
  - rewrite Hr. destruct (procs c); reflexivity.
Qed.

(** * The model at work *)

#[local] Abbreviation add := (addInput lenDeserialize byteHash).
#[local] Abbreviation start := (@initState nat (list N) _ _).
#[local] Abbreviation once := (final (add demoInput start)).
#[local] Abbreviation again := (RpcInput.mk [Byte.x01] [5%N] [] 0).
#[local] Abbreviation blind := (set_noCover true start).
#[local] Abbreviation twins :=
  (ConnectRes.mk "" [] [] [demoCandidate; demoCandidate]).

Example Split_ids : Split "1,22,,3" = ["1"; "22"; ""; "3"].
Proof. reflexivity. Qed.

Example ParseUint_cases :
  ParseUint "18446744073709551615" = Some 18446744073709551615%N ∧
  ParseUint "18446744073709551616" = None ∧
  ParseUint "+1" = None ∧ ParseUint "" = None ∧ ParseUint "007" = Some 7%N.
Proof. repeat split; reflexivity. Qed.

Example Since_zero_time : Since 63000000000000000000 0 = maxDuration.
Proof. reflexivity. Qed.

(** The first tick after start polls: [lastPoll] is the zero time. *)
Example first_tick_polls :
  polls (trace (final (pollLoopBody lenDeserialize byteHash false "file"
                         tickWake initState))) = 1.
Proof. vm_compute. reflexivity. Qed.

(** ** C2: a pulse without wanted candidates does not poll *)

Lemma poll_turn_counterexample :
  ¬ (∀ (w : Wake) (s : @State nat (list N) _ _),
       fired w = true ∨ wantCandidates w = true ∨
       (10 * Second ≤ Since (now w) (lastPoll s))%Z →
       polls (trace (final (pollLoopBody lenDeserialize byteHash false "file"
                              w s)))
       = S (polls (trace s))).
Proof.
  intros Hclaim.
  specialize (Hclaim pulseWake initState (or_introl eq_refl)).
  vm_compute in Hclaim. discriminate Hclaim.
Qed.

(** ** C3: the same bytes twice *)

Lemma addInput_twice_witness :
  (byteHash (RpcInput.Prog demoInput) ∉ corpusHashes start) ∧
  panics (add demoInput start) = false ∧
  corpus (final (add demoInput once)) = corpus once ∧
  corpusHashes (final (add demoInput once)) = corpusHashes once ∧
  length (corpus (final (add demoInput once))) = 1.
Proof.
  assert (byteHash (RpcInput.Prog demoInput) ∉ corpusHashes start) as Hfresh
    by (simpl; apply not_elem_of_empty).
  split; [exact Hfresh|]. split; [reflexivity|].
  destruct (addInput_twice lenDeserialize byteHash demoInput demoInput start
              eq_refl Hfresh eq_refl)
    as (_ & Hc & Hh & Hl).
  split; [exact Hc|]. split; [exact Hh|exact Hl].
Defined.

(** ** C6: host detection fails *)

Lemma buildCallList_counterexample :
  ¬ (∀ (t : Target) (detect : Target → gmap Syscall bool * option error)
       (enabledCalls : string) (s s' : @State nat (list N) _ _)
       (calls : gmap Syscall bool) (c : Syscall),
       buildCallList t detect enabledCalls s = Ok calls s' →
       calls !! c = Some true →
       index (detect t).1 c = true).
Proof.
  intros Hclaim.
  specialize (Hclaim oneCallTarget hostUnknown "" initState initState
                {[7%N := true]} 7%N eq_refl eq_refl).
  vm_compute in Hclaim. discriminate Hclaim.
Qed.

(** ** C9: a duplicate with new signal *)

Lemma addInput_duplicate_witness :
  byteHash [Byte.x01] ∈ corpusHashes once ∧
  panics (add again once) = false ∧
  corpus (final (add again once)) = corpus once ∧
  maxSignal (final (add again once)) = maxSignal once ∪ list_to_set [5%N].
Proof.
  assert (byteHash [Byte.x01] ∈ corpusHashes once) as Hin
    by (vm_compute; set_solver).
  split; [exact Hin|]. split; [reflexivity|].
  destruct (addInput_duplicate lenDeserialize byteHash again once Hin eq_refl)
    as (Hc & _ & Hm & _).
  split; [exact Hc|exact Hm].
Defined.

(** ** C10: the same candidate twice, coverage disabled *)

Lemma candidates_not_deduplicated_witness :
  noCover blind = true ∧
  lenDeserialize (RpcCandidate.Prog demoCandidate) = inl 2 ∧
  corpus (final (seedCandidates lenDeserialize twins blind)) = [2; 2] ∧
  corpusHashes (final (seedCandidates lenDeserialize twins blind)) = ∅.
Proof.
  split; [reflexivity|]. split; [reflexivity|].
  destruct (candidates_not_deduplicated lenDeserialize byteHash false
              demoCandidate 2 [] pulseWake [] "" blind eq_refl eq_refl)
    as ((Hc & Hh) & _).
  split; [exact Hc|exact Hh].
Defined.

(** ** C5: the first poll result without candidates, with [-leak] *)

Lemma allTriaged_latch_witness :
  allTriaged start = 0%N ∧
  PollRes.Candidates idleRes = [] ∧
  panics (absorbPollRes lenDeserialize byteHash true tickWake idleRes start)
  = false ∧
  allTriaged
    (final (absorbPollRes lenDeserialize byteHash true tickWake idleRes start))
  = 1%N ∧
  trace
    (final (absorbPollRes lenDeserialize byteHash true tickWake idleRes start))
  = [EvKmemleakScan false; EvStoreAllTriaged 1].
Proof.
  destruct (allTriaged_latch lenDeserialize byteHash true "file" 0 oneCallTarget
              hostUnknown tickWake idleRes [] start) as (H0 & Hset & _).
  destruct (Hset eq_refl eq_refl eq_refl) as [Ha Ht].
  split; [exact H0|]. split; [reflexivity|]. split; [reflexivity|].
  split; [exact Ha|exact Ht].
Defined.

(** ** C6: ids 0 and 1 on a host that lacks syscall 8 *)

Lemma buildCallList_spec_witness :
  buildCallList threeCallTarget hostKnown "0,1" start
  = Ok {[7%N := true]} start ∧
  ∃ sieved : gmap Syscall bool,
    (∀ c b, sieved !! c = Some b → b = true) ∧
    (∀ c, ({[7%N := true]} : gmap Syscall bool) !! c = Some true ↔
          sieved !! c = Some true ∧ index sieved c = true).
Proof.
  split; [reflexivity|].
  destruct (buildCallList_spec threeCallTarget hostKnown "0,1" start)
    as [_ Hret].
  destruct (Hret {[7%N := true]} start eq_refl)
    as (_ & sieved & _ & Htrue & Hlook & _).
  exists sieved. split; [exact Htrue|exact Hlook].
Defined.

(** ** C7: one input and one candidate, coverage enabled *)

Example busyRes_absorbed :
  corpus (final (absorbReply lenDeserialize byteHash busyRes start)) = [1] ∧
  workQueue (final (absorbReply lenDeserialize byteHash busyRes start))
  = [mkWorkCandidate 2 true] ∧
  elements (maxSignal (final (absorbReply lenDeserialize byteHash busyRes start)))
  = [42%N; 17%N; 9%N].
Proof. repeat split; vm_compute; reflexivity. Qed.


(** ** C8: a candidate that does not deserialize *)

Lemma addInput_fatal_witness :
  emptyCandidate ∈ PollRes.Candidates brokenRes ∧
  lenDeserialize (RpcCandidate.Prog emptyCandidate) = inr "empty program" ∧
  panics (absorbPollRes lenDeserialize byteHash false tickWake brokenRes start)
  = true.
Proof.
  assert (emptyCandidate ∈ PollRes.Candidates brokenRes) as Hin
    by (apply elem_of_cons; right; apply elem_of_cons; by left).
  split; [exact Hin|]. split; [reflexivity|].
  destruct (addInput_fatal lenDeserialize byteHash false demoInput tickWake
              brokenRes twins start) as (_ & Hpoll & _).
  exact (Hpoll emptyCandidate "empty program" Hin eq_refl).
Defined.

(** * The further properties at work *)

(** ** X4, X5, X6: a batch of two inputs *)

Lemma inputs_batch_witness :
  panics (forM_ [demoInput; otherInput] add start) = false ∧
  length (corpus (final (forM_ [demoInput; otherInput] add start))) = 2 ∧
  maxSignal (final (forM_ [demoInput; otherInput] add start))
  = ∅ ∪ batchSignal [demoInput; otherInput].
Proof.
  assert (panics (forM_ [demoInput; otherInput] add start) = false) as Hok
    by reflexivity.
  split; [exact Hok|].
  destruct (inputs_batch lenDeserialize byteHash [demoInput; otherInput] start
              Hok) as (Hm & _ & _ & Hc).
  split; [exact Hc|exact Hm].
Defined.

Lemma inputs_order_irrelevant_witness :
  [demoInput; otherInput] ≡ₚ [otherInput; demoInput] ∧
  maxSignal (final (forM_ [demoInput; otherInput] add start))
  = maxSignal (final (forM_ [otherInput; demoInput] add start)).
Proof.
  split; [apply perm_swap|].
  destruct (inputs_order_irrelevant lenDeserialize byteHash
              [demoInput; otherInput] [otherInput; demoInput] start
              (perm_swap _ _ _)) as [_ Hsame].
  assert (panics (forM_ [demoInput; otherInput] add start) = false) as Hok
    by reflexivity.
  destruct (Hsame Hok) as (Hm & _). exact Hm.
Defined.

Lemma inputs_idempotent_witness :
  panics (forM_ [demoInput; otherInput] add start) = false ∧
  forM_ [demoInput; otherInput] add
    (final (forM_ [demoInput; otherInput] add start))
  = Ok tt (final (forM_ [demoInput; otherInput] add start)).
Proof.
  assert (panics (forM_ [demoInput; otherInput] add start) = false) as Hok
    by reflexivity.
  split; [exact Hok|].
  exact (inputs_idempotent lenDeserialize byteHash [demoInput; otherInput]
           start Hok).
Defined.

(** ** X7, X8: a bootstrap with coverage off *)

#[local] Abbreviation boot :=
  (bootstrap lenDeserialize byteHash 2 oneCallTarget hostUnknown seedRes 0).

Lemma bootstrap_fatal_witness :
  noCover start = false ∧
  panics (bootstrap lenDeserialize byteHash 2 oneCallTarget hostUnknown
            brokenSeed 0 start) = true.
Proof.
  destruct (bootstrap_fatal lenDeserialize byteHash 2 oneCallTarget hostUnknown
              brokenSeed 0 start eq_refl) as (_ & _ & Hpanic & _).
  split; [reflexivity|].
  apply Hpanic. right. right.
  exists emptyCandidate. eexists. split; [by right; left|reflexivity].
Defined.


(** ** X9: two ticks five seconds apart *)

#[local] Abbreviation tick :=
  (pollLoopBody lenDeserialize byteHash false "file" tickWake).
#[local] Abbreviation soon :=
  (pollLoopBody lenDeserialize byteHash false "file" soonWake).

Lemma poll_rate_limit_witness :
  lastPoll (final (tick start)) = 20000000001%Z ∧
  polls (trace (final (soon (final (tick start)))))
  = polls (trace (final (tick start))) ∧
  lastPoll (final (soon (final (tick start)))) = 20000000001%Z.
Proof.
  destruct (poll_rate_limit lenDeserialize byteHash false "file"
              tickWake soonWake (PollRes.mk [] [] [9%N]) start
              eq_refl eq_refl eq_refl eq_refl eq_refl) as (Hl & Hquiet & _).
  split; [exact Hl|].
  destruct Hquiet as (_ & Hp & Hlp); [vm_compute; discriminate|].
  split; [exact Hp|exact Hlp].
Defined.

(** ** X10, X11: [-calls] strings *)

Lemma calls_first_bad_id_witness :
  buildCallList oneCallTarget hostUnknown "0,x,9" start
  = Panic "invalid syscall in -calls flag: x" start ∧
  ∃ pre id post,
    Split "0,x,9" = pre ++ id :: post ∧
    "invalid syscall in -calls flag: x"
    = "invalid syscall in -calls flag: " +:+ id.
Proof.
  split; [reflexivity|].
  destruct (calls_first_bad_id oneCallTarget hostUnknown "0,x,9"
              "invalid syscall in -calls flag: x" start start eq_refl)
    as (_ & pre & id & post & Hs & _ & _ & Hm).
  exists pre, id, post. split; [exact Hs|exact Hm].
Defined.

Lemma calls_string_accepted_witness :
  Join (pretty <$> [0%N; 2%N]) = "0,2" ∧
  panics (buildCallList threeCallTarget hostKnown "0,2" start) = false.
Proof.
  split; [reflexivity|].
  assert (Forall (λ n, (n < N.of_nat (length (Syscalls threeCallTarget)))%N
                       ∧ (n < 2 ^ 64)%N) [0%N; 2%N]) as Hall
    by (repeat constructor).
  destruct (calls_string_accepted threeCallTarget hostKnown [0%N; 2%N] start
              ltac:(discriminate) Hall) as (_ & Hok & _).
  exact Hok.
Defined.

(** ** X13: flags with the signal bit 2, TUN 64 and fault injection 128 *)

Lemma flags_keep_coverage_witness :
  Z.land 64 2 = 0%Z ∧ Z.land 128 2 = 0%Z ∧
  noCover (final (detectNoCover 2 (configFlags 64 128 ∅ ∅ true 3) start))
  = false.
Proof.
  split; [reflexivity|]. split; [reflexivity|].
  destruct (flags_keep_coverage 2 64 128 ∅ ∅ true 3 start eq_refl eq_refl)
    as [_ Hnc].
  exact Hnc.
Defined.
